(** * rbx-discord-embeds: builders for Discord webhook payloads

    A shallow embedding of [src/utility.ts], [src/embed-builder.ts],
    [src/content-builder.ts] and [src/create-timestamp.ts].

    The library is compiled by roblox-ts to Luau.  Builders are Luau tables
    that are mutated in place and handed around by reference, so the
    embedding keeps an explicit store of tables addressed by locations; a
    method is a computation over that store which either returns a value or
    raises a Luau error (the store keeps every write made before the error).
    Warnings printed with [warn] are collected in the store as well. *)

From Stdlib Require Import ZArith Ascii String List.
From stdpp Require Import base tactics option list gmap strings pretty.

Local Open Scope string_scope.
Local Open Scope Z_scope.

(** ** Luau values and tables *)

Definition loc := positive.

(** The metatable of a table: instances made by [new C()] carry the class. *)
Inductive class : Set :=
  | EmbedBuilderClass
  | ContentBuilderClass
  | BitFieldClass.

Inductive val : Set :=
  | VNil
  | VBool (b : bool)
  | VNum (n : Z)
  | VStr (s : string)
  | VRef (l : loc).

Global Arguments VRef l%_positive.

Global Instance class_eq_dec : EqDecision class.
Proof. solve_decision. Defined.

Global Instance val_eq_dec : EqDecision val.
Proof. solve_decision. Defined.

(** A table has a metatable, string keys and an array part (keys 1..n). *)
Record table : Type := Table {
  tmeta : option class;
  thash : gmap string val;
  tarr : list val
}.

Definition empty_table : table := Table None ∅ [].

(** The store: the tables that exist, and the warnings printed so far. *)
Record world : Type := World {
  w_heap : gmap loc table;
  w_warn : list string
}.

Definition empty_world : world := World ∅ [].

(** The store with the table at [l] replaced (or created). *)
Definition upd (w : world) (l : loc) (t : table) : world :=
  World (<[l := t]> (w_heap w)) (w_warn w).

(** ** Computations that may raise *)

Inductive outcome (A : Type) : Type :=
  | Ok (a : A)
  | Err (msg : string).
Global Arguments Ok {A} a.
Global Arguments Err {A} msg.

Definition M (A : Type) : Type := world → outcome A * world.

Definition ret {A} (a : A) : M A := λ w, (Ok a, w).

Definition bind {A B} (m : M A) (f : A → M B) : M B :=
  λ w, match m w with
       | (Ok a, w') => f a w'
       | (Err e, w') => (Err e, w')
       end.

Notation "'let*' x := m 'in' k" := (bind m (λ x, k))
  (at level 10, x name, m at level 100, k at level 200).
Notation "m >> k" := (bind m (λ _, k))
  (at level 100, k at level 200, right associativity).

(** [error(msg)] and [assert(cond, msg)]: the error value is the message. *)
Definition error {A} (msg : string) : M A := λ w, (Err msg, w).

Definition assert (cond : bool) (msg : string) : M unit :=
  if cond then ret tt else error msg.

(** [warn(msg)] prints and carries on. *)
Definition warn (msg : string) : M unit :=
  λ w, (Ok tt, World (w_heap w) (w_warn w ++ [msg])).

(** A table constructor [{...}]: the new table gets a fresh identity. *)
Definition alloc (t : table) : M val :=
  λ w, let l := fresh (dom (w_heap w)) in (Ok (VRef l), upd w l t).

Definition new_table : M val := alloc empty_table.

(** Looking a value up as a table; indexing anything else raises. *)
Definition deref (v : val) : M table :=
  λ w, match v with
       | VRef l =>
           match w_heap w !! l with
           | Some t => (Ok t, w)
           | None => (Err "attempt to index nil", w)
           end
       | _ => (Err "attempt to index a non-table value", w)
       end.

Definition hash_get (t : table) (k : string) : val := default VNil (thash t !! k).

(** Writing [nil] removes the key, as in Luau. *)
Definition hash_set (t : table) (k : string) (x : val) : table :=
  Table (tmeta t)
        (match x with VNil => delete k (thash t) | _ => <[k := x]> (thash t) end)
        (tarr t).

(** [v[k]] for a string key. *)
Definition get_field (v : val) (k : string) : M val :=
  let* t := deref v in ret (hash_get t k).

(** [v[k] = x] for a string key. *)
Definition set_field (v : val) (k : string) (x : val) : M unit :=
  λ w, match v with
       | VRef l =>
           match w_heap w !! l with
           | Some t => (Ok tt, upd w l (hash_set t k x))
           | None => (Err "attempt to index nil", w)
           end
       | _ => (Err "attempt to index a non-table value", w)
       end.

(** [table.clone(v)]: a shallow copy with a fresh identity. *)
Definition table_clone (v : val) : M val :=
  let* t := deref v in alloc t.

(** The array part with [x] behind its last element; [nil] adds nothing. *)
Definition arr_push (t : table) (x : val) : table :=
  Table (tmeta t) (thash t) (match x with VNil => tarr t | _ => tarr t ++ [x] end).

(** [array.push(x)] *)
Definition array_push (v : val) (x : val) : M unit :=
  λ w, match v with
       | VRef l =>
           match w_heap w !! l with
           | Some t => (Ok tt, upd w l (arr_push t x))
           | None => (Err "attempt to index nil", w)
           end
       | _ => (Err "attempt to index a non-table value", w)
       end.

(** [a ?? b] *)
Definition nullish (a : val) (b : M val) : M val :=
  match a with VNil => b | _ => ret a end.

Definition run {A} (m : M A) (w : world) : outcome A := fst (m w).
Definition exec {A} (m : M A) (w : world) : world := snd (m w).

(** Reading the store without changing it. *)
Definition inspect {A} (f : world → A) : M A := λ w, (Ok (f w), w).

(** ** Luau string primitives *)

Definition byte (c : ascii) : Z := Z.of_N (N_of_ascii c).

Definition is_digit (c : ascii) : bool := (48 <=? byte c) && (byte c <=? 57).

Definition is_empty (s : string) : bool :=
  match s with EmptyString => true | String _ _ => false end.

(** [s:sub(1, -2)]: everything but the last byte. *)
Definition sub_1_m2 (s : string) : string := substring 0 (String.length s - 1) s.

(** *** [string.match] for the patterns of this library

    The matcher follows [match] of Luau's lstrlib on the pattern items the
    library's three patterns are made of: a literal byte, [%d], an escaped
    punctuation byte, each optionally followed by [?], and a final [$]. *)

(** One pattern item against the subject: [k] continues after the item,
    [kq] is the continuation behind a [?] suffix when there is one. *)
Definition item (cls : ascii → bool) (k : string → bool)
    (kq : option (string → bool)) (s : string) : bool :=
  match kq with
  | Some k' =>
      match s with
      | String x s' => (cls x && k' s') || k' s
      | EmptyString => k' s
      end
  | None =>
      match s with
      | String x s' => cls x && k s'
      | EmptyString => false
      end
  end.

Definition escaped (c : ascii) : ascii → bool :=
  if Ascii.eqb c "d" then is_digit else Ascii.eqb c.

Fixpoint do_match (p s : string) {struct p} : bool :=
  match p with
  | EmptyString => true
  | String c p1 =>
      if Ascii.eqb c "$" && is_empty p1 then is_empty s
      else if Ascii.eqb c "%" then
        match p1 with
        | EmptyString => false
        | String e p2 =>
            item (escaped e) (do_match p2)
                 (match p2 with
                  | String q p3 => if Ascii.eqb q "?" then Some (do_match p3) else None
                  | EmptyString => None
                  end) s
        end
      else
        item (Ascii.eqb c) (do_match p1)
             (match p1 with
              | String q p2 => if Ascii.eqb q "?" then Some (do_match p2) else None
              | EmptyString => None
              end) s
  end.

Fixpoint match_from_any (p s : string) {struct s} : bool :=
  do_match p s ||
  match s with
  | String _ s' => match_from_any p s'
  | EmptyString => false
  end.

(** [string.match(s, p) ~= nil] *)
Definition string_match (s p : string) : bool :=
  match p with
  | String c p' => if Ascii.eqb c "^" then do_match p' s else match_from_any p s
  | EmptyString => true
  end.

(** *** [utf8.len]

    After [utf8_decode] and [utflen] of Luau's lutf8lib: the number of code
    points of a well-formed string, or the (1-based) position of the first
    byte that does not start one. *)

(** The continuation bytes announced by the lead byte [c]. *)
Fixpoint decode_cont (bits : nat) (c res count : Z) (s : string)
    : option (Z * Z * Z * string) :=
  match bits with
  | O => Some (c, res, count, s)
  | S bits' =>
      if Z.testbit c 6 then
        match s with
        | EmptyString => None
        | String b s' =>
            let cc := byte b in
            if Z.land cc 192 =? 128
            then decode_cont bits' (Z.shiftl c 1)
                             (Z.lor (Z.shiftl res 6) (Z.land cc 63)) (count + 1) s'
            else None
        end
      else Some (c, res, count, s)
  end.

Definition utf8_limit (count : Z) : Z :=
  if count =? 0 then 255 else if count =? 1 then 127
  else if count =? 2 then 2047 else 65535.

(** Decodes one code point; the result is what follows it. *)
Definition utf8_decode (s : string) : option string :=
  match s with
  | EmptyString => None
  | String b s' =>
      let c := byte b in
      if c <? 128 then Some s'
      else
        match decode_cont 8 c 0 0 s' with
        | None => None
        | Some (c', res, count, rest) =>
            let res' := Z.lor res (Z.shiftl (Z.land c' 127) (count * 5)) in
            if (3 <? count) || (1114111 <? res') || (res' <=? utf8_limit count) then None
            else if (55296 <=? res') && (res' <? 57344) then None
            else Some rest
        end
  end.

Fixpoint utf8_len_from (steps : nat) (pos n : Z) (s : string) : Z + Z :=
  match s, steps with
  | EmptyString, _ => inl n
  | _, O => inl n
  | _, S steps' =>
      match utf8_decode s with
      | None => inr (pos + 1)
      | Some s' =>
          utf8_len_from steps'
            (pos + Z.of_nat (String.length s - String.length s')) (n + 1) s'
      end
  end.

(** [utf8.len(s)]: [inl n] for [n], [inr p] for [nil, p]. *)
Definition utf8_len (s : string) : Z + Z :=
  utf8_len_from (String.length s) 0 0 s.

(** [tostring] of an integer. *)
Definition tostring (n : Z) : string := pretty n.

(** ** utility.ts *)

Definition IsValidUrl (value : string) : bool := string_match value "^https?://".

Fixpoint push_all (result : val) (values : list val) : M unit :=
  match values with
  | [] => ret tt
  | value :: rest => array_push result value >> push_all result rest
  end.

Definition Append (array : val) (values : list val) : M val :=
  let* result := table_clone array in
  push_all result values >>
  ret result.

Definition GetUtf8Length (value : string) : M Z :=
  match utf8_len value with
  | inl valueLength => ret valueLength
  | inr invalidBytePosition =>
      error ("string `" ++ value ++ "` has an invalid byte at position "
             ++ tostring invalidBytePosition)
  end.

(** [value instanceof C]: the metatable of the table is the class. *)
Definition instanceof (c : class) (value : val) : M bool :=
  inspect (λ w,
    match value with
    | VRef l =>
        match w_heap w !! l with
        | Some t => bool_decide (tmeta t = Some c)
        | None => false
        end
    | _ => false
    end).

(** [if (cond) error(msg)] *)
Definition error_if (cond : bool) (msg : string) : M unit :=
  if cond then error msg else ret tt.

(** ** embed-builder.ts *)

Module EmbedBuilder.

Definition MatchIso8601 (value : string) : bool :=
  string_match value "^%d%d%d%d%-%d%d%-%d%dT%d%d:%d%d:%d%dZ$".

Definition MatchIso8601DiscordTimestamp (value : string) : bool :=
  string_match value "^%d%d%d%d%-%d%d%-%d%dT%d%d:%d%d:%d%d%.%d%d%dZ$".

Definition IsValidIso8601 (value : string) : bool := MatchIso8601 value.

Definition IsValidIso8601DiscordTimestamp (value : string) : bool :=
  MatchIso8601DiscordTimestamp value.

Definition ConvertToDiscordTimestamp (iso8601 : string) : string :=
  sub_1_m2 iso8601 ++ ".000Z".

(** The checks of [@rbxts/t] that [$terrify<FieldData>()] expands to, for
    [interface FieldData { inline?: boolean; name: string; value: string }]. *)
Definition t_string (v : val) : bool :=
  match v with VStr _ => true | _ => false end.

Definition t_boolean (v : val) : bool :=
  match v with VBool _ => true | _ => false end.

Definition t_optional (check : val → bool) (v : val) : bool :=
  match v with VNil => true | _ => check v end.

(** [t.interface]: a table, whose listed keys pass their checks. *)
Definition t_interface (checks : list (string * (val → bool)))
    (h : gmap loc table) (v : val) : bool :=
  match v with
  | VRef l =>
      match h !! l with
      | Some t => forallb (λ kc, snd kc (hash_get t (fst kc))) checks
      | None => false
      end
  | _ => false
  end.

Definition IsFieldData (h : gmap loc table) (v : val) : bool :=
  t_interface [("inline", t_optional t_boolean); ("name", t_string); ("value", t_string)] h v.

(** [t.array(IsFieldData)] on the table of the rest arguments. *)
Definition IsArrayOfFieldData (args : list val) : M bool :=
  inspect (λ w, forallb (IsFieldData (w_heap w)) args).

(** [new EmbedBuilder()]; the field initialiser gives [EmbedData = {}]. *)
Definition new : M val :=
  let* self := alloc (Table (Some EmbedBuilderClass) ∅ []) in
  let* data := new_table in
  set_field self "EmbedData" data >>
  ret self.

Definition Is (value : val) : M bool := instanceof EmbedBuilderClass value.

Definition SetTitle (this : val) (title : string) : M val :=
  let* len := GetUtf8Length title in
  error_if (256 <? len) "'title' must be less than 256 characters" >>
  let* data := get_field this "EmbedData" in
  set_field data "title" (VStr title) >>
  ret this.

Definition SetDescription (this : val) (description : string) : M val :=
  let* len := GetUtf8Length description in
  error_if (4096 <? len) "'description' must be less than 2048 characters" >>
  let* data := get_field this "EmbedData" in
  set_field data "description" (VStr description) >>
  ret this.

Definition SetUrl (this : val) (url : string) : M val :=
  assert (IsValidUrl url) "'url' must be a valid URL" >>
  let* data := get_field this "EmbedData" in
  set_field data "url" (VStr url) >>
  ret this.

Definition SetBodyUrl (this : val) (url : string) : M val := SetUrl this url.

Definition SetColor (this : val) (color : Z) : M val :=
  let* data := get_field this "EmbedData" in
  set_field data "color" (VNum color) >>
  ret this.

(** [table.clone(this.EmbedData[key] ?? {})], then one key of the clone is
    written and the clone is stored back. *)
Definition set_sub (this : val) (key field : string) (x : val) : M val :=
  let* data := get_field this "EmbedData" in
  let* current := get_field data key in
  let* source := nullish current new_table in
  let* clone := table_clone source in
  set_field clone field x >>
  let* data' := get_field this "EmbedData" in
  set_field data' key clone >>
  ret this.

Definition SetAuthorName (this : val) (authorName : string) : M val :=
  let* len := GetUtf8Length authorName in
  error_if (256 <? len) "'authorName' must be less than 256 characters" >>
  set_sub this "author" "name" (VStr authorName).

Definition SetAuthorUrl (this : val) (authorUrl : string) : M val :=
  assert (IsValidUrl authorUrl) "'authorUrl' must be a valid URL" >>
  set_sub this "author" "url" (VStr authorUrl).

Definition SetAuthorIconUrl (this : val) (authorIconUrl : string) : M val :=
  assert (IsValidUrl authorIconUrl) "'authorIconUrl' must be a valid URL" >>
  set_sub this "author" "icon_url" (VStr authorIconUrl).

Definition SetAuthor (this : val) (authorName : string)
    (authorUrl authorIconUrl : option string) : M val :=
  SetAuthorName this authorName >>
  match authorUrl with Some u => SetAuthorUrl this u | None => ret this end >>
  match authorIconUrl with Some u => SetAuthorIconUrl this u | None => ret this end >>
  ret this.

Definition SetFooterText (this : val) (footerText : string) : M val :=
  let* len := GetUtf8Length footerText in
  error_if (2048 <? len) "'footerText' must be less than 2048 characters" >>
  set_sub this "footer" "text" (VStr footerText).

Definition SetFooterIconUrl (this : val) (footerIconUrl : string) : M val :=
  assert (IsValidUrl footerIconUrl) "'footerIconUrl' must be a valid URL" >>
  set_sub this "footer" "icon_url" (VStr footerIconUrl).

Definition SetFooter (this : val) (footerText : string)
    (footerIconUrl : option string) : M val :=
  SetFooterText this footerText >>
  match footerIconUrl with Some u => SetFooterIconUrl this u | None => ret this end >>
  ret this.

Definition SetTimestamp (this : val) (timestamp : string) : M val :=
  let timestamp :=
    if IsValidIso8601 timestamp then ConvertToDiscordTimestamp timestamp else timestamp in
  assert (IsValidIso8601DiscordTimestamp timestamp)
         "'timestamp' must be a valid ISO8601 timestamp (YYYY-MM-DDTHH:MM:SS.000Z)" >>
  let* data := get_field this "EmbedData" in
  set_field data "timestamp" (VStr timestamp) >>
  ret this.

Definition opt_bool (b : option bool) : val :=
  match b with Some b => VBool b | None => VNil end.

(** The table [{ inline, name, value }]. *)
Definition field_literal (inline : option bool) (name value : string) : M val :=
  alloc (hash_set (Table None {[ "name" := VStr name; "value" := VStr value ]} [])
                  "inline" (opt_bool inline)).

Definition AddField (this : val) (name value : string) (inline : option bool) : M val :=
  let* len := GetUtf8Length name in
  error_if (256 <? len) "'name' must be less than 256 characters" >>
  let* len' := GetUtf8Length value in
  error_if (1024 <? len') "'value' must be less than 1024 characters" >>
  let* data := get_field this "EmbedData" in
  let* current := get_field data "fields" in
  let* fields := nullish current new_table in
  let* field := field_literal inline name value in
  let* result := Append fields [field] in
  let* data' := get_field this "EmbedData" in
  set_field data' "fields" result >>
  ret this.

Definition SetField (this : val) (name value : string) (inline : option bool) : M val :=
  let* len := GetUtf8Length name in
  error_if (256 <? len) "'name' must be less than 256 characters" >>
  let* len' := GetUtf8Length value in
  error_if (1024 <? len') "'value' must be less than 1024 characters" >>
  let* data := get_field this "EmbedData" in
  let* current := get_field data "fields" in
  let* fields := nullish current new_table in
  let* field := field_literal inline name value in
  let* result := Append fields [field] in
  let* data' := get_field this "EmbedData" in
  set_field data' "fields" result >>
  ret this.

Definition AddFields (this : val) (args : list val) : M val :=
  let* ok := IsArrayOfFieldData args in
  assert ok "'args' must be an array of IFieldData" >>
  let* data := get_field this "EmbedData" in
  let* current := get_field data "fields" in
  let* fields := nullish current new_table in
  let* result := Append fields args in
  let* data' := get_field this "EmbedData" in
  set_field data' "fields" result >>
  ret this.

Definition SetFields (this : val) (args : list val) : M val :=
  let* data := get_field this "EmbedData" in
  let* current := get_field data "fields" in
  let* fields := nullish current new_table in
  let* result := Append fields args in
  let* data' := get_field this "EmbedData" in
  set_field data' "fields" result >>
  ret this.

(** The table [{ url }]. *)
Definition url_literal (url : string) : M val :=
  alloc (Table None {[ "url" := VStr url ]} []).

Definition SetImage (this : val) (url : string) : M val :=
  assert (IsValidUrl url) "'url' must be a valid URL" >>
  let* wrapper := url_literal url in
  let* data := get_field this "EmbedData" in
  set_field data "image" wrapper >>
  ret this.

Definition SetThumbnail (this : val) (url : string) : M val :=
  assert (IsValidUrl url) "'url' must be a valid URL" >>
  let* wrapper := url_literal url in
  let* data := get_field this "EmbedData" in
  set_field data "thumbnail" wrapper >>
  ret this.

Definition AddImage (this : val) (url : string) : M val :=
  assert (IsValidUrl url) "'url' must be a valid URL" >>
  let* wrapper := url_literal url in
  let* data := get_field this "EmbedData" in
  set_field data "image" wrapper >>
  ret this.

Definition AddThumbnail (this : val) (url : string) : M val :=
  assert (IsValidUrl url) "'url' must be a valid URL" >>
  let* wrapper := url_literal url in
  let* data := get_field this "EmbedData" in
  set_field data "thumbnail" wrapper >>
  ret this.

End EmbedBuilder.

(** ** The bit-set utility *)

Module BitField.

(** Modelled from the spec: the bit-set utility [@rbxts/rbx-bitfield] that
    content-builder.ts imports is not among the sources.  The spec describes
    it as a set of independent boolean flags packed into one integer by
    bitwise OR, supporting test and set and exposing its combined integer
    value; the flag set of a new builder is empty. *)
Definition new (value : Z) : M val :=
  alloc (Table (Some BitFieldClass) {[ "Value" := VNum value ]} []).

Definition value_of (this : val) : M Z :=
  let* v := get_field this "Value" in
  match v with
  | VNum n => ret n
  | _ => error "attempt to perform arithmetic on a non-number value"
  end.

(** Modelled from the spec: the test operation, true when a bit of [flag]
    is in the set. *)
Definition Intersects (this : val) (flag : Z) : M bool :=
  let* n := value_of this in
  ret (negb (Z.land n flag =? 0)).

(** Modelled from the spec: the set operation, a new bit set with the bits
    of [flag] OR-ed in. *)
Definition On (this : val) (flag : Z) : M val :=
  let* n := value_of this in
  new (Z.lor n flag).

End BitField.

(** ** content-builder.ts *)

Inductive MessageFlags : Set :=
  | SUPPRESS_EMBEDS
  | SUPPRESS_NOTIFICATIONS.

Definition flag_value (flag : MessageFlags) : Z :=
  match flag with
  | SUPPRESS_EMBEDS => Z.shiftl 1 2
  | SUPPRESS_NOTIFICATIONS => Z.shiftl 1 12
  end.

Module ContentBuilder.

(** [new ContentBuilder()]; the field initialisers give
    [EmbedData = { attachments = {} }] and [Flags = new BitField()]. *)
Definition new : M val :=
  let* self := alloc (Table (Some ContentBuilderClass) ∅ []) in
  let* attachments := new_table in
  let* data := alloc (Table None {[ "attachments" := attachments ]} []) in
  set_field self "EmbedData" data >>
  let* flags := BitField.new 0 in
  set_field self "Flags" flags >>
  ret self.

Definition Is (value : val) : M bool := instanceof ContentBuilderClass value.

Definition SetUsername (this : val) (username : string) : M val :=
  let* len := GetUtf8Length username in
  error_if (80 <? len) "Username must be less than 80 characters" >>
  let* data := get_field this "EmbedData" in
  set_field data "username" (VStr username) >>
  ret this.

Definition SetAvatarUrl (this : val) (avatarUrl : string) : M val :=
  assert (IsValidUrl avatarUrl) "Avatar URL must be a valid URL" >>
  let* data := get_field this "EmbedData" in
  set_field data "avatar_url" (VStr avatarUrl) >>
  ret this.

Definition SetContent (this : val) (content : string) : M val :=
  let* len := GetUtf8Length content in
  error_if (2000 <? len) "Content must be less than 2000 characters" >>
  let* data := get_field this "EmbedData" in
  set_field data "content" (VStr content) >>
  ret this.

Definition SetThread (this : val) (threadName : string) : M val :=
  let* len := GetUtf8Length threadName in
  error_if (100 <? len) "Thread name must be less than 100 characters" >>
  let* data := get_field this "EmbedData" in
  set_field data "thread_name" (VStr threadName) >>
  ret this.

Definition AddFlag (this : val) (flag : MessageFlags) : M val :=
  let* flags := get_field this "Flags" in
  let* already := BitField.Intersects flags (flag_value flag) in
  if already then
    warn "Flag already set." >>
    ret this
  else
    let* flags' := get_field this "Flags" in
    let* on := BitField.On flags' (flag_value flag) in
    set_field this "Flags" on >>
    ret this.

Definition AddEmbed (this : val) (embed : val) : M val :=
  let* ok := EmbedBuilder.Is embed in
  assert ok "Embed must be an EmbedBuilder" >>
  let* data := get_field this "EmbedData" in
  let* embeds := get_field data "embeds" in
  let* array := nullish embeds new_table in
  let* doc := get_field embed "EmbedData" in
  let* result := Append array [doc] in
  let* data' := get_field this "EmbedData" in
  set_field data' "embeds" result >>
  ret this.

Definition AddImage (this : val) (image bodyUrl : string) : M val :=
  assert (IsValidUrl image) "'image' must be a valid URL" >>
  assert (IsValidUrl bodyUrl) "'bodyUrl' must be a valid URL" >>
  let* data := get_field this "EmbedData" in
  let* embeds := get_field data "embeds" in
  let* array := nullish embeds new_table in
  let* builder := EmbedBuilder.new in
  let* builder1 := EmbedBuilder.AddImage builder image in
  let* builder2 := EmbedBuilder.SetBodyUrl builder1 bodyUrl in
  let* doc := get_field builder2 "EmbedData" in
  let* result := Append array [doc] in
  let* data' := get_field this "EmbedData" in
  set_field data' "embeds" result >>
  ret this.

(** The object literal [{ ...this.EmbedData, flags: this.Flags.Value }]: a
    new table with the keys of [EmbedData], then [flags]. *)
Definition Serialize (this : val) : M val :=
  let* data := get_field this "EmbedData" in
  let* t := deref data in
  let* object := alloc (Table None (thash t) (tarr t)) in
  let* flags := get_field this "Flags" in
  let* value := get_field flags "Value" in
  set_field object "flags" value >>
  ret object.

(** [HttpService.JSONEncode] is the host's encoder: it is a parameter, which
    reads the store to encode the object it is given. *)
Definition SerializeAsJson (JSONEncode : world → val → string) (this : val) : M val :=
  let* data := get_field this "EmbedData" in
  let* t := deref data in
  let* object := alloc (Table None (thash t) (tarr t)) in
  let* flags := get_field this "Flags" in
  let* value := get_field flags "Value" in
  set_field object "flags" value >>
  let* json := inspect (λ w, JSONEncode w object) in
  ret (VStr json).

Definition ToJson (JSONEncode : world → val → string) (this : val) : M val :=
  let* data := get_field this "EmbedData" in
  let* t := deref data in
  let* object := alloc (Table None (thash t) (tarr t)) in
  let* flags := get_field this "Flags" in
  let* value := get_field flags "Value" in
  set_field object "flags" value >>
  let* json := inspect (λ w, JSONEncode w object) in
  ret (VStr json).

End ContentBuilder.

(** ** create-timestamp.ts *)

(** The members of the numeric enum [TimestampType]. *)
Module TimestampType.
End TimestampType.



(** ** Observations on the store *)

(** [this] is a table whose [EmbedData] is the table at [d]. *)
Definition owns (w : world) (this : val) (d : loc) : Prop :=
  ∃ l t, this = VRef l ∧ w_heap w !! l = Some t ∧
         hash_get t "EmbedData" = VRef d ∧ is_Some (w_heap w !! d).

(** The value under key [k] of the table at [d]. *)
Definition doc_field (w : world) (d : loc) (k : string) : val :=
  match w_heap w !! d with
  | Some t => hash_get t k
  | None => VNil
  end.

Global Arguments owns w this d%_positive.
Global Arguments doc_field w d%_positive k%_string.

(** The value under [field] of the sub-object under [key]. *)
Definition sub_field (w : world) (d : loc) (key field : string) : val :=
  match doc_field w d key with
  | VRef a => doc_field w a field
  | _ => VNil
  end.

Global Arguments sub_field w d%_positive (key field)%_string.

(** The elements of the array a value refers to. *)
Definition array_of (w : world) (v : val) : list val :=
  match v with
  | VRef l => match w_heap w !! l with Some t => tarr t | None => [] end
  | _ => []
  end.

(** A key that is either unset or holds a table. *)
Definition table_or_nil (w : world) (v : val) : Prop :=
  v = VNil ∨ ∃ l, v = VRef l ∧ is_Some (w_heap w !! l).

(** A builder whose document keeps tables (or nothing) where the methods
    expect them. *)
Definition builder (w : world) (this : val) (d : loc) : Prop :=
  owns w this d ∧
  ∀ k, k ∈ ["author"; "footer"; "fields"; "embeds"] → table_or_nil w (doc_field w d k).

Global Arguments builder w this d%_positive.

(** The integer of [this.Flags]. *)
Definition flags_value (w : world) (this : val) : option Z :=
  match run (let* flags := get_field this "Flags" in BitField.value_of flags) w with
  | Ok n => Some n
  | Err _ => None
  end.

(** [m], started in [w], ends with an outcome and a store that satisfy [Q]. *)
Definition wp {A} (m : M A) (w : world) (Q : outcome A → world → Prop) : Prop :=
  Q (run m w) (exec m w).

(** What a sub-setter of [author] or [footer] leaves behind: the document
    points to a table [a] that did not exist before, which holds [x] under
    [field] and agrees elsewhere with the sub-object it replaces; the other
    keys of the document and every other table are as they were. *)
Definition sub_post (w : world) (d : loc) (key field : string) (x : val)
    (w' : world) : Prop :=
  ∃ a, doc_field w' d key = VRef a ∧
       w_heap w !! a = None ∧
       is_Some (w_heap w' !! a) ∧
       doc_field w' a field = x ∧
       (∀ f, f ≠ field → doc_field w' a f = sub_field w d key f) ∧
       (∀ k, k ≠ key → doc_field w' d k = doc_field w d k) ∧
       (∀ l, is_Some (w_heap w !! l) → l ≠ d → w_heap w' !! l = w_heap w !! l) ∧
       is_Some (w_heap w' !! d) ∧
       w_warn w' = w_warn w.

(** The last element of the document's [fields], read at key [k]. *)
Definition last_field (w : world) (d : loc) (k : string) : val :=
  match last (array_of w (doc_field w d "fields")) with
  | Some (VRef f) => doc_field w f k
  | _ => VNil
  end.

(** A setter of a string of at most [bound] code points: a longer string
    raises and leaves the store as it was, a string within the bound is
    stored and [read] gives it back. *)
Definition bounded_setter (bound : Z) (call : val → string → M val)
    (read : world → loc → val) : Prop :=
  ∀ w this s n, utf8_len s = inl n →
    (bound < n →
     (∃ msg, run (call this s) w = Err msg) ∧ exec (call this s) w = w) ∧
    (n ≤ bound → ∀ d, builder w this d →
     run (call this s) w = Ok this ∧ read (exec (call this s) w) d = VStr s).

(** The setters of one key of [author] or [footer], with their argument. *)
Inductive sub_setter : Set :=
  | AuthorName (authorName : string)
  | AuthorUrl (authorUrl : string)
  | AuthorIconUrl (authorIconUrl : string)
  | FooterText (footerText : string)
  | FooterIconUrl (footerIconUrl : string).

Definition sub_call (this : val) (c : sub_setter) : M val :=
  match c with
  | AuthorName s => EmbedBuilder.SetAuthorName this s
  | AuthorUrl u => EmbedBuilder.SetAuthorUrl this u
  | AuthorIconUrl u => EmbedBuilder.SetAuthorIconUrl this u
  | FooterText s => EmbedBuilder.SetFooterText this s
  | FooterIconUrl u => EmbedBuilder.SetFooterIconUrl this u
  end.

(** The sub-object and the key a sub-setter writes, and what it writes. *)
Definition sub_key (c : sub_setter) : string :=
  match c with
  | AuthorName _ | AuthorUrl _ | AuthorIconUrl _ => "author"
  | FooterText _ | FooterIconUrl _ => "footer"
  end.

Definition sub_name (c : sub_setter) : string :=
  match c with
  | AuthorName _ => "name"
  | AuthorUrl _ => "url"
  | AuthorIconUrl _ | FooterIconUrl _ => "icon_url"
  | FooterText _ => "text"
  end.

Definition sub_arg (c : sub_setter) : string :=
  match c with
  | AuthorName s | AuthorUrl s | AuthorIconUrl s | FooterText s | FooterIconUrl s => s
  end.

(** The argument passes the check of its setter. *)
Definition sub_valid (c : sub_setter) : bool :=
  match c with
  | AuthorName s => match utf8_len s with inl n => n <=? 256 | inr _ => false end
  | FooterText s => match utf8_len s with inl n => n <=? 2048 | inr _ => false end
  | AuthorUrl u | AuthorIconUrl u | FooterIconUrl u => IsValidUrl u
  end.

(** The position of the single bit of a flag. *)
Definition flag_bit (flag : MessageFlags) : Z :=
  match flag with
  | SUPPRESS_EMBEDS => 2
  | SUPPRESS_NOTIFICATIONS => 12
  end.

(** [this.Flags] is a bit set whose integer is [v]. *)
Definition has_flags (w : world) (this : val) (v : Z) : Prop :=
  ∃ l t f tf, this = VRef l ∧ w_heap w !! l = Some t ∧
              hash_get t "Flags" = VRef f ∧ w_heap w !! f = Some tf ∧
              hash_get tf "Value" = VNum v.

(** The last element of the document's [embeds]. *)
Definition last_embed (w : world) (d : loc) : option val :=
  last (array_of w (doc_field w d "embeds")).

Global Arguments last_embed w d%_positive.

(** ** Programs over the builders *)

(** A call of a method of the library; [this] and the arguments are
    whatever values the caller passes. *)
Inductive call : Type :=
  | NewEmbedBuilder
  | NewContentBuilder
  | E_SetTitle (this : val) (title : string)
  | E_SetDescription (this : val) (description : string)
  | E_SetUrl (this : val) (url : string)
  | E_SetBodyUrl (this : val) (url : string)
  | E_SetColor (this : val) (color : Z)
  | E_SetAuthor (this : val) (authorName : string) (authorUrl authorIconUrl : option string)
  | E_SetAuthorName (this : val) (authorName : string)
  | E_SetAuthorUrl (this : val) (authorUrl : string)
  | E_SetAuthorIconUrl (this : val) (authorIconUrl : string)
  | E_SetFooter (this : val) (footerText : string) (footerIconUrl : option string)
  | E_SetFooterText (this : val) (footerText : string)
  | E_SetFooterIconUrl (this : val) (footerIconUrl : string)
  | E_SetTimestamp (this : val) (timestamp : string)
  | E_AddField (this : val) (name value : string) (inline : option bool)
  | E_SetField (this : val) (name value : string) (inline : option bool)
  | E_AddFields (this : val) (args : list val)
  | E_SetFields (this : val) (args : list val)
  | E_SetImage (this : val) (url : string)
  | E_SetThumbnail (this : val) (url : string)
  | E_AddImage (this : val) (url : string)
  | E_AddThumbnail (this : val) (url : string)
  | C_SetUsername (this : val) (username : string)
  | C_SetAvatarUrl (this : val) (avatarUrl : string)
  | C_SetContent (this : val) (content : string)
  | C_SetThread (this : val) (threadName : string)
  | C_AddFlag (this : val) (flag : MessageFlags)
  | C_AddEmbed (this : val) (embed : val)
  | C_AddImage (this : val) (image bodyUrl : string)
  | C_Serialize (this : val)
  | C_SerializeAsJson (JSONEncode : world → val → string) (this : val)
  | C_ToJson (JSONEncode : world → val → string) (this : val).

Definition perform (c : call) : M val :=
  match c with
  | NewEmbedBuilder => EmbedBuilder.new
  | NewContentBuilder => ContentBuilder.new
  | E_SetTitle this title => EmbedBuilder.SetTitle this title
  | E_SetDescription this description => EmbedBuilder.SetDescription this description
  | E_SetUrl this url => EmbedBuilder.SetUrl this url
  | E_SetBodyUrl this url => EmbedBuilder.SetBodyUrl this url
  | E_SetColor this color => EmbedBuilder.SetColor this color
  | E_SetAuthor this n u i => EmbedBuilder.SetAuthor this n u i
  | E_SetAuthorName this n => EmbedBuilder.SetAuthorName this n
  | E_SetAuthorUrl this u => EmbedBuilder.SetAuthorUrl this u
  | E_SetAuthorIconUrl this u => EmbedBuilder.SetAuthorIconUrl this u
  | E_SetFooter this t i => EmbedBuilder.SetFooter this t i
  | E_SetFooterText this t => EmbedBuilder.SetFooterText this t
  | E_SetFooterIconUrl this u => EmbedBuilder.SetFooterIconUrl this u
  | E_SetTimestamp this t => EmbedBuilder.SetTimestamp this t
  | E_AddField this n v i => EmbedBuilder.AddField this n v i
  | E_SetField this n v i => EmbedBuilder.SetField this n v i
  | E_AddFields this args => EmbedBuilder.AddFields this args
  | E_SetFields this args => EmbedBuilder.SetFields this args
  | E_SetImage this url => EmbedBuilder.SetImage this url
  | E_SetThumbnail this url => EmbedBuilder.SetThumbnail this url
  | E_AddImage this url => EmbedBuilder.AddImage this url
  | E_AddThumbnail this url => EmbedBuilder.AddThumbnail this url
  | C_SetUsername this u => ContentBuilder.SetUsername this u
  | C_SetAvatarUrl this u => ContentBuilder.SetAvatarUrl this u
  | C_SetContent this c => ContentBuilder.SetContent this c
  | C_SetThread this t => ContentBuilder.SetThread this t
  | C_AddFlag this flag => ContentBuilder.AddFlag this flag
  | C_AddEmbed this embed => ContentBuilder.AddEmbed this embed
  | C_AddImage this image bodyUrl => ContentBuilder.AddImage this image bodyUrl
  | C_Serialize this => ContentBuilder.Serialize this
  | C_SerializeAsJson enc this => ContentBuilder.SerializeAsJson enc this
  | C_ToJson enc this => ContentBuilder.ToJson enc this
  end.

(** The store after a sequence of calls; a call that raises is caught by
    the caller, and the store keeps what the call wrote before it raised. *)
Fixpoint perform_all (cs : list call) (w : world) : world :=
  match cs with
  | [] => w
  | c :: cs' => perform_all cs' (exec (perform c) w)
  end.

(** The flags that the calls add to the builder [this], OR-ed onto [v]. *)
Definition flag_step (this : val) (v : Z) (c : call) : Z :=
  match c with
  | C_AddFlag this' flag => if decide (this' = this) then Z.lor v (flag_value flag) else v
  | _ => v
  end.

Definition flags_added (this : val) (cs : list call) : Z :=
  fold_left (flag_step this) cs 0.

(** The calls never add a flag to [this]. *)
Definition no_flag_added (this : val) (cs : list call) : Prop :=
  ∀ flag, C_AddFlag this flag ∉ cs.

(** Every table of [w] is still there in [w'], with the [EmbedData] and the
    [Value] it had, and the table at [b], if any, with its [Flags]. *)
Definition keeps (b : option loc) (w w' : world) : Prop :=
  ∀ l t, w_heap w !! l = Some t →
    ∃ t', w_heap w' !! l = Some t' ∧
          hash_get t' "EmbedData" = hash_get t "EmbedData" ∧
          hash_get t' "Value" = hash_get t "Value" ∧
          (b = Some l → hash_get t' "Flags" = hash_get t "Flags").

Definition preserving {A} (b : option loc) (m : M A) : Prop :=
  ∀ w, keeps b w (exec m w).

(** The builder at [b] has a document, and a bit set whose integer is [v]. *)
Definition content_builder (w : world) (b : loc) (v : Z) : Prop :=
  has_flags w (VRef b) v ∧ ∃ d, owns w (VRef b) d.

(** ** Sample stores *)

(** The store after [new EmbedBuilder()] in an empty store: the builder is
    table 1 and its document table 2. *)
Definition embed_world : world := exec EmbedBuilder.new empty_world.

(** The store after [new ContentBuilder()] followed by [new EmbedBuilder()]:
    the content builder is table 1 with its document at 3 and its flags at 4,
    the embed builder is table 5 with its document at 6. *)
Definition message_world : world :=
  exec (ContentBuilder.new >> EmbedBuilder.new) empty_world.

(** [message_world] after [AddFlag(SUPPRESS_EMBEDS)] on its content builder. *)
Definition flagged_world : world :=
  exec (ContentBuilder.AddFlag (VRef 1) SUPPRESS_EMBEDS) message_world.

(** [embed_world] with one more table, at 3, which has a [name] but no
    [value]: not a field. *)
Definition nameless_world : world :=
  exec (alloc (Table None {[ "name" := VStr "only a name" ]} [])) embed_world.

(** [n] copies of the byte [c]. *)
Fixpoint replicate_string (n : nat) (c : ascii) : string :=
  match n with
  | O => EmptyString
  | S n' => String c (replicate_string n' c)
  end.

(** * Properties *)

(** ** The timestamp formatter *)




(** ** Reasoning about computations *)

Lemma wp_ret {A} (a : A) w Q : Q (Ok a) w → wp (ret a) w Q.
Proof. done. Qed.

Lemma wp_error {A} msg w (Q : outcome A → world → Prop) :
  Q (Err msg) w → wp (error msg) w Q.
Proof. done. Qed.

Lemma wp_bind {A B} (m : M A) (f : A → M B) w Q :
  wp m w (λ o w', match o with Ok a => wp (f a) w' Q | Err e => Q (Err e) w' end) →
  wp (bind m f) w Q.
Proof. unfold wp, run, exec, bind. by destruct (m w) as [[a|e] w']. Qed.

Lemma wp_mono {A} (m : M A) w (Q Q' : outcome A → world → Prop) :
  wp m w Q → (∀ o w', Q o w' → Q' o w') → wp m w Q'.
Proof. unfold wp. auto. Qed.

Lemma wp_deref l t w Q :
  w_heap w !! l = Some t → Q (Ok t) w → wp (deref (VRef l)) w Q.
Proof. unfold wp, run, exec, deref. by intros ->. Qed.

Lemma wp_get_field l k t w Q :
  w_heap w !! l = Some t → Q (Ok (hash_get t k)) w → wp (get_field (VRef l) k) w Q.
Proof. intros H HQ. apply wp_bind. eapply wp_deref; [done|]. by apply wp_ret. Qed.

Lemma wp_set_field l k x t w Q :
  w_heap w !! l = Some t → Q (Ok tt) (upd w l (hash_set t k x)) →
  wp (set_field (VRef l) k x) w Q.
Proof. unfold wp, run, exec, set_field. by intros ->. Qed.

Lemma wp_array_push l x t w Q :
  w_heap w !! l = Some t → Q (Ok tt) (upd w l (arr_push t x)) →
  wp (array_push (VRef l) x) w Q.
Proof. unfold wp, run, exec, array_push. by intros ->. Qed.

Lemma wp_alloc t w Q :
  (∀ l, w_heap w !! l = None → Q (Ok (VRef l)) (upd w l t)) → wp (alloc t) w Q.
Proof.
  intros H. unfold wp, run, exec, alloc; simpl. apply H.
  apply not_elem_of_dom, is_fresh.
Qed.

Lemma wp_inspect {A} (f : world → A) w Q : Q (Ok (f w)) w → wp (inspect f) w Q.
Proof. done. Qed.

Lemma wp_warn msg w Q :
  Q (Ok tt) (World (w_heap w) (w_warn w ++ [msg])) → wp (warn msg) w Q.
Proof. done. Qed.

Lemma wp_table_clone l t w Q :
  w_heap w !! l = Some t →
  (∀ l', w_heap w !! l' = None → Q (Ok (VRef l')) (upd w l' t)) →
  wp (table_clone (VRef l)) w Q.
Proof. intros H HQ. apply wp_bind. eapply wp_deref; [done|]. by apply wp_alloc. Qed.

Lemma wp_run_exec {A} (m : M A) w Q : wp m w Q → Q (run m w) (exec m w).
Proof. done. Qed.

Lemma lookup_upd_eq w l t : w_heap (upd w l t) !! l = Some t.
Proof. apply lookup_insert_eq. Qed.

Lemma lookup_upd_ne w l t l' : l ≠ l' → w_heap (upd w l t) !! l' = w_heap w !! l'.
Proof. apply lookup_insert_ne. Qed.

Lemma lookup_upd_None w l t l' :
  w_heap (upd w l t) !! l' = None ↔ w_heap w !! l' = None ∧ l ≠ l'.
Proof. apply lookup_insert_None. Qed.

Lemma hash_get_set t k x : hash_get (hash_set t k x) k = x.
Proof.
  unfold hash_get, hash_set; simpl.
  destruct x; by rewrite ?lookup_delete_eq, ?lookup_insert_eq.
Qed.

Lemma hash_get_set_ne t k k' x : k ≠ k' → hash_get (hash_set t k x) k' = hash_get t k'.
Proof.
  intros Hne. unfold hash_get, hash_set; simpl.
  destruct x; by rewrite ?lookup_delete_ne, ?lookup_insert_ne.
Qed.

Lemma hash_get_arr_push t x k : hash_get (arr_push t x) k = hash_get t k.
Proof. done. Qed.

(** Locations that are free in a store differ from the allocated ones. *)
Ltac norm_fresh :=
  repeat match goal with
  | H : w_heap (upd _ _ _) !! _ = None |- _ => apply lookup_upd_None in H as [H ?]
  end;
  repeat match goal with
  | H1 : w_heap ?w !! ?l = None, H2 : w_heap ?w !! ?x = Some _ |- _ =>
      lazymatch goal with
      | _ : x ≠ l |- _ => fail
      | _ => assert (x ≠ l) by (intros ->; congruence)
      end
  end.

Ltac heap_simpl :=
  norm_fresh;
  repeat first
    [ rewrite lookup_upd_eq
    | rewrite lookup_upd_ne by (done || (apply not_eq_sym; done)) ].

Ltac heap_lookup := heap_simpl; first [ eassumption | reflexivity ].

(** One step of a computation. *)
Ltac wp_step :=
  repeat match goal with
  | H : hash_get ?t ?k = _ |- context [hash_get ?t ?k] => rewrite H
  end;
  first
  [ apply wp_ret
  | apply wp_error
  | apply wp_inspect
  | apply wp_warn
  | eapply wp_get_field; [heap_lookup|]
  | eapply wp_set_field; [heap_lookup|]
  | eapply wp_array_push; [heap_lookup|]
  | eapply wp_table_clone; [heap_lookup|intros ? ?]
  | eapply wp_deref; [heap_lookup|]
  | apply wp_alloc; intros ? ?
  | apply wp_bind ];
  cbv beta iota.

Ltac wp_steps := repeat wp_step.

Lemma wp_GetUtf8Length s n w Q :
  utf8_len s = inl n → Q (Ok n) w → wp (GetUtf8Length s) w Q.
Proof. unfold GetUtf8Length. by intros ->. Qed.

Lemma wp_error_if_false msg w Q : Q (Ok tt) w → wp (error_if false msg) w Q.
Proof. done. Qed.

Lemma wp_assert_true msg w Q : Q (Ok tt) w → wp (assert true msg) w Q.
Proof. done. Qed.

Lemma ltb_false_le (a b : Z) : b ≤ a → (a <? b) = false.
Proof. intros. by apply Z.ltb_ge. Qed.

Lemma ltb_true_lt (a b : Z) : a < b → (a <? b) = true.
Proof. intros. by apply Z.ltb_lt. Qed.

(** A length check that fails leaves the store as it was. *)
Lemma length_guard_fails {A} s n bound msg (k : M A) w :
  utf8_len s = inl n → bound < n →
  (let* len := GetUtf8Length s in error_if (bound <? len) msg >> k) w = (Err msg, w).
Proof.
  intros Hn Hlt. unfold bind, GetUtf8Length. rewrite Hn. simpl.
  by rewrite ltb_true_lt.
Qed.

(** A string that cannot be decoded is refused by every length check. *)
Lemma length_guard_invalid {A} s p bound msg (k : M A) w :
  utf8_len s = inr p →
  (let* len := GetUtf8Length s in error_if (bound <? len) msg >> k) w
  = (Err ("string `" ++ s ++ "` has an invalid byte at position " ++ tostring p), w).
Proof. intros Hp. unfold bind, GetUtf8Length. by rewrite Hp. Qed.

Lemma length_guard_passes {A} s n bound msg (k : M A) w :
  utf8_len s = inl n → n ≤ bound →
  (let* len := GetUtf8Length s in error_if (bound <? len) msg >> k) w = k w.
Proof.
  intros Hn Hle. unfold bind, GetUtf8Length. rewrite Hn. simpl.
  rewrite ltb_false_le by done. simpl. by destruct (k w) as [[?|?] ?].
Qed.

(** A length check that passes runs the rest of the method. *)
Lemma wp_length_guard {A} s n bound msg (k : M A) w Q :
  utf8_len s = inl n → n ≤ bound → wp k w Q →
  wp (let* len := GetUtf8Length s in error_if (bound <? len) msg >> k) w Q.
Proof.
  intros Hn Hle Hk. apply wp_bind. eapply wp_GetUtf8Length; [done|].
  apply wp_bind. rewrite ltb_false_le by done. by apply wp_error_if_false.
Qed.

Lemma owns_upd w this d l t' :
  owns w this d →
  (∀ t, w_heap w !! l = Some t → hash_get t' "EmbedData" = hash_get t "EmbedData") →
  owns (upd w l t') this d.
Proof.
  intros (l0 & t0 & -> & Hl0 & Hd & [td Htd]) Hkeep.
  destruct (decide (l = l0)) as [->|Hne].
  - exists l0, t'. rewrite lookup_upd_eq. repeat split; [by rewrite (Hkeep _ Hl0)|].
    destruct (decide (l0 = d)) as [->|]; [rewrite lookup_upd_eq|rewrite lookup_upd_ne by done]; eauto.
  - exists l0, t0. rewrite lookup_upd_ne by done. repeat split; [done..|].
    destruct (decide (l = d)) as [->|]; [rewrite lookup_upd_eq|rewrite lookup_upd_ne by done]; eauto.
Qed.

(** The tail shared by the plain setters: [this.EmbedData[k] = x; return this]. *)
Lemma wp_store_field w this d k x Q :
  owns w this d →
  (∀ td, w_heap w !! d = Some td → Q (Ok this) (upd w d (hash_set td k x))) →
  wp (let* data := get_field this "EmbedData" in set_field data k x >> ret this) w Q.
Proof.
  intros (l & t & -> & Hl & Hd & [td Htd]) HQ.
  wp_steps. by apply HQ.
Qed.

Lemma doc_field_stored w d td k x : doc_field (upd w d (hash_set td k x)) d k = x.
Proof. unfold doc_field. by rewrite lookup_upd_eq, hash_get_set. Qed.

(** ** Timestamps of an embed *)

Lemma item_plain cls k s :
  item cls k None s = true → ∃ x s', s = String x s' ∧ cls x = true ∧ k s' = true.
Proof.
  destruct s as [|x s']; simpl; [done|].
  intros [? ?]%andb_prop. eauto.
Qed.

Lemma item_plain_cons cls k x s : item cls k None (String x s) = cls x && k s.
Proof. done. Qed.

Lemma is_empty_true s : is_empty s = true → s = "".
Proof. by destruct s. Qed.

Local Arguments Ascii.eqb !a !b.

Ltac pattern_step H :=
  cbn [do_match Ascii.eqb Bool.eqb andb is_empty escaped] in H.

(** Reads a successful match of a pattern of plain items off the subject. *)
Ltac match_inv H :=
  pattern_step H;
  repeat (apply item_plain in H as (? & ? & -> & ? & H); pattern_step H);
  try (apply is_empty_true in H as ->).

Ltac eval_subterm f :=
  match goal with
  | |- context [f ?a ?b] =>
      let t := eval vm_compute in (f a b) in change (f a b) with t
  | |- context [f ?a] =>
      let t := eval vm_compute in (f a) in change (f a) with t
  end.

Lemma MatchIso8601_convert s :
  EmbedBuilder.MatchIso8601 s = true →
  (∃ s0, EmbedBuilder.ConvertToDiscordTimestamp s = s0 ++ ".000Z" ∧ s = s0 ++ "Z") ∧
  EmbedBuilder.MatchIso8601DiscordTimestamp (EmbedBuilder.ConvertToDiscordTimestamp s) = true.
Proof.
  unfold EmbedBuilder.MatchIso8601, EmbedBuilder.ConvertToDiscordTimestamp, string_match.
  intros H. match_inv H.
  repeat match goal with H : Ascii.eqb _ _ = true |- _ => apply Ascii.eqb_eq in H; subst end.
  eval_subterm sub_1_m2.
  split; [eexists; split; reflexivity|].
  unfold EmbedBuilder.MatchIso8601DiscordTimestamp, string_match.
  eval_subterm String.append.
  repeat (cbn [do_match Ascii.eqb Bool.eqb andb is_empty escaped];
          rewrite item_plain_cons;
          first [ match goal with H : is_digit _ = true |- _ => rewrite H; clear H end
                | rewrite Ascii.eqb_refl ];
          cbn [andb]).
  reflexivity.
Qed.

Lemma MatchIso8601_length s :
  EmbedBuilder.MatchIso8601 s = true → String.length s = 20%nat.
Proof.
  unfold EmbedBuilder.MatchIso8601, string_match. intros H. match_inv H. reflexivity.
Qed.

Lemma MatchIso8601DiscordTimestamp_length s :
  EmbedBuilder.MatchIso8601DiscordTimestamp s = true → String.length s = 24%nat.
Proof.
  unfold EmbedBuilder.MatchIso8601DiscordTimestamp, string_match.
  intros H. match_inv H. reflexivity.
Qed.

Lemma SetTimestamp_stores w this d s s' :
  owns w this d →
  (if EmbedBuilder.IsValidIso8601 s then EmbedBuilder.ConvertToDiscordTimestamp s else s) = s' →
  EmbedBuilder.IsValidIso8601DiscordTimestamp s' = true →
  run (EmbedBuilder.SetTimestamp this s) w = Ok this ∧
  doc_field (exec (EmbedBuilder.SetTimestamp this s) w) d "timestamp" = VStr s'.
Proof.
  intros Howns Hs' Hvalid.
  apply (wp_run_exec (EmbedBuilder.SetTimestamp this s) w
           (λ o w', o = Ok this ∧ doc_field w' d "timestamp" = VStr s')).
  unfold EmbedBuilder.SetTimestamp. rewrite Hs', Hvalid.
  apply wp_bind, wp_assert_true. eapply wp_store_field; [exact Howns|].
  intros td _. split; [done|]. apply doc_field_stored.
Qed.

(** C3: the whole-second form is stored with its trailing [Z] replaced by
    [.000Z], the millisecond form is stored as given, and every other string
    raises an error and leaves the store as it was. *)
Theorem SetTimestamp_normalises (w : world) (this : val) (d : loc) (s : string) :
  owns w this d →
  (EmbedBuilder.IsValidIso8601 s = true →
   (∃ s0, s = s0 ++ "Z" ∧ EmbedBuilder.ConvertToDiscordTimestamp s = s0 ++ ".000Z") ∧
   run (EmbedBuilder.SetTimestamp this s) w = Ok this ∧
   doc_field (exec (EmbedBuilder.SetTimestamp this s) w) d "timestamp"
   = VStr (EmbedBuilder.ConvertToDiscordTimestamp s)) ∧
  (EmbedBuilder.IsValidIso8601DiscordTimestamp s = true →
   run (EmbedBuilder.SetTimestamp this s) w = Ok this ∧
   doc_field (exec (EmbedBuilder.SetTimestamp this s) w) d "timestamp" = VStr s) ∧
  (EmbedBuilder.IsValidIso8601 s = false →
   EmbedBuilder.IsValidIso8601DiscordTimestamp s = false →
   run (EmbedBuilder.SetTimestamp this s) w
   = Err "'timestamp' must be a valid ISO8601 timestamp (YYYY-MM-DDTHH:MM:SS.000Z)" ∧
   exec (EmbedBuilder.SetTimestamp this s) w = w).
Proof.
  intros Howns.
  unfold EmbedBuilder.IsValidIso8601, EmbedBuilder.IsValidIso8601DiscordTimestamp.
  repeat apply conj.
  - intros Hs. destruct (MatchIso8601_convert s Hs) as [(s0 & ? & ?) Hconv].
    split; [by exists s0|].
    apply SetTimestamp_stores; [done| |done].
    unfold EmbedBuilder.IsValidIso8601. by rewrite Hs.
  - intros Hs. apply SetTimestamp_stores; [done| |done].
    unfold EmbedBuilder.IsValidIso8601.
    destruct (EmbedBuilder.MatchIso8601 s) eqn:Hs'; [|done].
    apply MatchIso8601_length in Hs'.
    apply MatchIso8601DiscordTimestamp_length in Hs. congruence.
  - intros Hs Hs'.
    unfold run, exec, EmbedBuilder.SetTimestamp, bind,
      EmbedBuilder.IsValidIso8601, EmbedBuilder.IsValidIso8601DiscordTimestamp.
    by rewrite Hs, Hs'.
Qed.

Lemma SetTimestamp_normalises_witness :
  run (EmbedBuilder.SetTimestamp (VRef 1) "2023-07-25T11:12:30Z") embed_world = Ok (VRef 1) ∧
  doc_field (exec (EmbedBuilder.SetTimestamp (VRef 1) "2023-07-25T11:12:30Z") embed_world)
            2 "timestamp"
  = VStr "2023-07-25T11:12:30.000Z" ∧
  doc_field (exec (EmbedBuilder.SetTimestamp (VRef 1) "2023-07-25T11:12:30.500Z") embed_world)
            2 "timestamp"
  = VStr "2023-07-25T11:12:30.500Z" ∧
  run (EmbedBuilder.SetTimestamp (VRef 1) "25 July 2023") embed_world
  = Err "'timestamp' must be a valid ISO8601 timestamp (YYYY-MM-DDTHH:MM:SS.000Z)".
Proof.
  assert (Howns : owns embed_world (VRef 1) 2).
  { exists 1%positive, (Table (Some EmbedBuilderClass) {[ "EmbedData" := VRef 2 ]} []).
    repeat split; [by vm_compute..|]. exists empty_table. by vm_compute. }
  destruct (SetTimestamp_normalises embed_world (VRef 1) 2%positive
              "2023-07-25T11:12:30Z" Howns) as ((_ & Hrun & Hdoc) & _ & _);
    [by vm_compute|].
  destruct (SetTimestamp_normalises embed_world (VRef 1) 2%positive
              "2023-07-25T11:12:30.500Z" Howns) as (_ & (_ & Hdoc') & _);
    [by vm_compute|].
  destruct (SetTimestamp_normalises embed_world (VRef 1) 2%positive
              "25 July 2023" Howns) as (_ & _ & (Hrun' & _));
    [by vm_compute..|].
  done.
Defined.

(** ** Writes into the document *)

Lemma doc_field_upd_eq w l t k : doc_field (upd w l t) l k = hash_get t k.
Proof. unfold doc_field. by rewrite lookup_upd_eq. Qed.

Lemma doc_field_upd_ne w l t l' k : l ≠ l' → doc_field (upd w l t) l' k = doc_field w l' k.
Proof. intros. unfold doc_field. by rewrite lookup_upd_ne. Qed.

Lemma doc_field_lookup w d td k : w_heap w !! d = Some td → doc_field w d k = hash_get td k.
Proof. unfold doc_field. by intros ->. Qed.

(** Goals about lookups in a store built by a run of updates. *)
Ltac heap_solve :=
  norm_fresh;
  repeat first
    [ rewrite doc_field_upd_eq
    | rewrite doc_field_upd_ne by (done || (apply not_eq_sym; done))
    | rewrite lookup_upd_eq
    | rewrite lookup_upd_ne by (done || (apply not_eq_sym; done))
    | rewrite hash_get_set
    | rewrite hash_get_set_ne by done
    | rewrite hash_get_arr_push ];
  eauto.

Lemma wp_set_sub w this d key field x :
  owns w this d → table_or_nil w (doc_field w d key) →
  wp (EmbedBuilder.set_sub this key field x) w
     (λ o w', o = Ok this ∧ sub_post w d key field x w').
Proof.
  intros (l & t & -> & Hl & Hd & [td Htd]) Hsub.
  unfold EmbedBuilder.set_sub.
  rewrite (doc_field_lookup _ _ _ _ Htd) in Hsub.
  destruct Hsub as [Hnil|(a0 & Ha0 & [ta Hta])].
  - wp_steps. unfold nullish, new_table. wp_steps. norm_fresh.
    split; [done|]. eexists. split; [heap_solve|].
    repeat split; try solve [heap_solve].
    + intros f Hf. heap_solve. unfold sub_field.
      by rewrite (doc_field_lookup _ _ _ _ Htd), Hnil.
    + intros k Hk. heap_solve. by rewrite (doc_field_lookup _ _ _ _ Htd).
    + intros l1 [t1 Hl1] Hne. heap_solve.
  - wp_steps. unfold nullish. wp_steps. norm_fresh.
    split; [done|]. eexists. split; [heap_solve|].
    repeat split; try solve [heap_solve].
    + intros f Hf. heap_solve. unfold sub_field.
      by rewrite (doc_field_lookup _ _ _ _ Htd), Ha0, (doc_field_lookup _ _ _ _ Hta).
    + intros k Hk. heap_solve. by rewrite (doc_field_lookup _ _ _ _ Htd).
    + intros l1 [t1 Hl1] Hne. heap_solve.
Qed.

Lemma upd_upd w l t t' : upd (upd w l t) l t' = upd w l t'.
Proof. unfold upd; simpl. by rewrite insert_insert_eq. Qed.

Lemma upd_id w l t : w_heap w !! l = Some t → upd w l t = w.
Proof. intros H. destruct w. unfold upd; simpl in *. by rewrite insert_id. Qed.

Lemma wp_push_all w r tr values Q :
  w_heap w !! r = Some tr →
  Q (Ok tt) (upd w r (fold_left arr_push values tr)) →
  wp (push_all (VRef r) values) w Q.
Proof.
  revert w tr. induction values as [|v values IH]; intros w tr Hr HQ; simpl.
  - apply wp_ret. by rewrite upd_id in HQ.
  - apply wp_bind. eapply wp_array_push; [done|]. cbv beta iota.
    eapply IH; [apply lookup_upd_eq|]. by rewrite upd_upd.
Qed.

(** [Append] copies the array into a new table and pushes the values. *)
Lemma wp_Append w l t values Q :
  w_heap w !! l = Some t →
  (∀ r, w_heap w !! r = None → Q (Ok (VRef r)) (upd w r (fold_left arr_push values t))) →
  wp (Append (VRef l) values) w Q.
Proof.
  intros Hl HQ. unfold Append. apply wp_bind.
  eapply wp_table_clone; [done|]. intros r Hr.
  apply wp_bind. eapply wp_push_all; [apply lookup_upd_eq|].
  rewrite upd_upd. apply wp_ret. by apply HQ.
Qed.

Lemma last_field_appended w d td r t f tf k :
  r ≠ d → f ≠ d → f ≠ r →
  w_heap w !! f = Some tf →
  last_field (upd (upd w r (arr_push t (VRef f))) d (hash_set td "fields" (VRef r))) d k
  = hash_get tf k.
Proof.
  intros Hrd Hfd Hfr Hf. unfold last_field.
  rewrite doc_field_upd_eq, hash_get_set. unfold array_of.
  rewrite lookup_upd_ne, lookup_upd_eq by done. simpl. rewrite last_snoc.
  by rewrite !doc_field_upd_ne, (doc_field_lookup _ _ _ _ Hf) by done.
Qed.

Lemma field_literal_name inline name value :
  hash_get (hash_set (Table None {[ "name" := VStr name; "value" := VStr value ]} [])
                     "inline" (EmbedBuilder.opt_bool inline)) "name" = VStr name.
Proof. by rewrite hash_get_set_ne. Qed.

Lemma field_literal_value inline name value :
  hash_get (hash_set (Table None {[ "name" := VStr name; "value" := VStr value ]} [])
                     "inline" (EmbedBuilder.opt_bool inline)) "value" = VStr value.
Proof. by rewrite hash_get_set_ne. Qed.

(** The tail of [AddField] and [SetField], behind the two length checks. *)
Lemma wp_append_field w this d name value inline :
  owns w this d → table_or_nil w (doc_field w d "fields") →
  wp (let* data := get_field this "EmbedData" in
      let* current := get_field data "fields" in
      let* fields := nullish current new_table in
      let* field := EmbedBuilder.field_literal inline name value in
      let* result := Append fields [field] in
      let* data' := get_field this "EmbedData" in
      set_field data' "fields" result >>
      ret this) w
     (λ o w', o = Ok this ∧ last_field w' d "name" = VStr name ∧
              last_field w' d "value" = VStr value).
Proof.
  intros (l & t & -> & Hl & Hd & [td Htd]) Hsub.
  rewrite (doc_field_lookup _ _ _ _ Htd) in Hsub.
  destruct Hsub as [Hnil|(a0 & Ha0 & [ta Hta])].
  - wp_steps. unfold nullish, new_table, EmbedBuilder.field_literal. wp_steps.
    norm_fresh. split; [done|]. rewrite upd_upd.
    erewrite !last_field_appended; try done; [|heap_lookup..].
    by rewrite field_literal_name, field_literal_value.
  - wp_steps. unfold nullish, EmbedBuilder.field_literal. wp_steps.
    norm_fresh. split; [done|]. rewrite upd_upd.
    erewrite !last_field_appended; try done; [|heap_lookup..].
    by rewrite field_literal_name, field_literal_value.
Qed.

(** ** Code points of a string *)

Lemma decode_cont_shorter bits c res count s c' res' count' rest :
  decode_cont bits c res count s = Some (c', res', count', rest) →
  (String.length rest ≤ String.length s)%nat.
Proof.
  revert c res count s. induction bits as [|bits IH]; intros c res count s; cbn [decode_cont].
  - intros H. inversion H; subst. lia.
  - destruct (Z.testbit c 6); [|intros H; simpl in H; inversion H; subst; lia].
    destruct s as [|b s']; [done|].
    destruct (Z.land (byte b) 192 =? 128); [|done].
    intros H%IH. cbn [String.length]. lia.
Qed.

Lemma utf8_decode_shorter s s' :
  utf8_decode s = Some s' → (String.length s' < String.length s)%nat.
Proof.
  unfold utf8_decode. destruct s as [|b s0]; [done|].
  destruct (byte b <? 128); [intros [= ->]; simpl; lia|].
  destruct (decode_cont 8 (byte b) 0 0 s0) as [[[[c' res] count] rest]|] eqn:Hc; [|done].
  apply decode_cont_shorter in Hc.
  repeat match goal with |- context [if ?x then _ else _] => destruct x end; try done.
  intros [= ->]. simpl. lia.
Qed.

(** The step budget of [utf8_len] is never used up. *)
Lemma utf8_len_from_steps steps steps' pos n s :
  (String.length s ≤ steps)%nat → (String.length s ≤ steps')%nat →
  utf8_len_from steps pos n s = utf8_len_from steps' pos n s.
Proof.
  revert steps' pos n s. induction steps as [|steps IH]; intros steps' pos n s Hs Hs'.
  - destruct s; [by destruct steps'|simpl in Hs; lia].
  - destruct s as [|b s0]; [by destruct steps'|].
    destruct steps' as [|steps']; [simpl in Hs'; lia|].
    cbn [utf8_len_from].
    destruct (utf8_decode (String b s0)) as [s'|] eqn:Hd; [|done].
    apply utf8_decode_shorter in Hd. apply IH; lia.
Qed.

Example utf8_len_ascii : utf8_len "hello" = inl 5.
Proof. vm_compute. reflexivity. Qed.

(* "é" = C3 A9, "€" = E2 82 AC *)
Example utf8_len_multi :
  utf8_len (String (ascii_of_nat 195) (String (ascii_of_nat 169)
           (String (ascii_of_nat 226) (String (ascii_of_nat 130) (String (ascii_of_nat 172) "a")))))
  = inl 3.
Proof. vm_compute. reflexivity. Qed.

Example utf8_len_bad :
  utf8_len (String "a" (String (ascii_of_nat 195) "b")) = inr 2.
Proof. vm_compute. reflexivity. Qed.

Example url_ok : IsValidUrl "https://x" = true /\ IsValidUrl "http://x" = true
  /\ IsValidUrl "ftp://x" = false /\ IsValidUrl "httpss://" = false.
Proof. vm_compute. auto. Qed.

Example tostring_ex : tostring 1690000000 = "1690000000" /\ tostring (-5) = "-5".
Proof. vm_compute. auto. Qed.

(** ** Length-bounded setters *)

Lemma bounded_setter_intro bound msg (body : val → string → M val) read :
  (∀ w this s d, builder w this d →
     wp (body this s) w (λ o w', o = Ok this ∧ read w' d = VStr s)) →
  bounded_setter bound
    (λ this s, let* len := GetUtf8Length s in error_if (bound <? len) msg >> body this s)
    read.
Proof.
  intros Hbody w this s n Hn. split.
  - intros Hlt. unfold run, exec.
    rewrite (length_guard_fails s n bound msg _ w Hn Hlt). eauto.
  - intros Hle d Hb.
    apply (wp_run_exec _ w (λ o w', o = Ok this ∧ read w' d = VStr s)).
    eapply wp_length_guard; [done..|]. by apply Hbody.
Qed.

Lemma wp_plain_setter w this d k s :
  builder w this d →
  wp (let* data := get_field this "EmbedData" in set_field data k (VStr s) >> ret this) w
     (λ o w', o = Ok this ∧ doc_field w' d k = VStr s).
Proof.
  intros [Howns _]. eapply wp_store_field; [done|].
  intros td _. split; [done|]. apply doc_field_stored.
Qed.

(** Membership in a list of literals. *)
Ltac in_list := repeat first [ apply list_elem_of_here | apply list_elem_of_further ].

Lemma wp_sub_setter w this d key field s :
  owns w this d → table_or_nil w (doc_field w d key) →
  wp (EmbedBuilder.set_sub this key field (VStr s)) w
     (λ o w', o = Ok this ∧ sub_field w' d key field = VStr s).
Proof.
  intros Howns Hsub.
  eapply wp_mono; [by apply wp_set_sub|].
  - intros o w' [-> (a & Ha & _ & _ & Hx & _)]. split; [done|].
    unfold sub_field. by rewrite Ha.
Qed.

Lemma AddField_bounded_name value inline m :
  utf8_len value = inl m → m ≤ 1024 →
  bounded_setter 256 (λ this s, EmbedBuilder.AddField this s value inline)
                 (λ w d, last_field w d "name").
Proof.
  intros Hm Hle. apply bounded_setter_intro. intros w this s d [Howns Hsub].
  eapply wp_length_guard; [done..|].
  eapply wp_mono; [apply (wp_append_field w this d s value inline); [done|]|].
  - apply Hsub. in_list.
  - by intros o w' (-> & -> & _).
Qed.

Lemma AddField_bounded_value name inline m :
  utf8_len name = inl m → m ≤ 256 →
  bounded_setter 1024 (λ this s, EmbedBuilder.AddField this name s inline)
                 (λ w d, last_field w d "value").
Proof.
  intros Hm Hle w this s n Hn. split.
  - intros Hlt. unfold run, exec, EmbedBuilder.AddField.
    rewrite (length_guard_passes name m 256 _ _ w Hm Hle).
    rewrite (length_guard_fails s n 1024 _ _ w Hn Hlt). eauto.
  - intros Hle' d [Howns Hsub].
    apply (wp_run_exec _ w (λ o w', o = Ok this ∧ last_field w' d "value" = VStr s)).
    unfold EmbedBuilder.AddField.
    eapply wp_length_guard; [done..|]. eapply wp_length_guard; [done..|].
    eapply wp_mono; [apply (wp_append_field w this d name s inline); [done|]|].
    + apply Hsub. in_list.
    + by intros o w' (-> & _ & ->).
Qed.

(** C4: each length-bounded setter (title 256, description 4096, author
    name 256, footer text 2048, field name 256, field value 1024, username
    80, content 2000, thread name 100) raises on a string with more code
    points than its bound and leaves the store as it was, and on a decodable
    string within the bound (the bound included) it succeeds and the field
    of the document is that string.  For [AddField], which checks two
    strings, the other string is taken within its own bound. *)
Theorem bounded_setters_enforce_length :
  bounded_setter 256 EmbedBuilder.SetTitle (λ w d, doc_field w d "title") ∧
  bounded_setter 4096 EmbedBuilder.SetDescription (λ w d, doc_field w d "description") ∧
  bounded_setter 256 EmbedBuilder.SetAuthorName (λ w d, sub_field w d "author" "name") ∧
  bounded_setter 2048 EmbedBuilder.SetFooterText (λ w d, sub_field w d "footer" "text") ∧
  (∀ value inline m, utf8_len value = inl m → m ≤ 1024 →
     bounded_setter 256 (λ this s, EmbedBuilder.AddField this s value inline)
                    (λ w d, last_field w d "name")) ∧
  (∀ name inline m, utf8_len name = inl m → m ≤ 256 →
     bounded_setter 1024 (λ this s, EmbedBuilder.AddField this name s inline)
                    (λ w d, last_field w d "value")) ∧
  bounded_setter 80 ContentBuilder.SetUsername (λ w d, doc_field w d "username") ∧
  bounded_setter 2000 ContentBuilder.SetContent (λ w d, doc_field w d "content") ∧
  bounded_setter 100 ContentBuilder.SetThread (λ w d, doc_field w d "thread_name").
Proof.
  repeat apply conj.
  - apply bounded_setter_intro. intros. by apply wp_plain_setter.
  - apply bounded_setter_intro. intros. by apply wp_plain_setter.
  - apply bounded_setter_intro. intros w this s d [Howns Hsub].
    apply wp_sub_setter; [done|]. apply Hsub. in_list.
  - apply bounded_setter_intro. intros w this s d [Howns Hsub].
    apply wp_sub_setter; [done|]. apply Hsub. in_list.
  - apply AddField_bounded_name.
  - apply AddField_bounded_value.
  - apply bounded_setter_intro. intros. by apply wp_plain_setter.
  - apply bounded_setter_intro. intros. by apply wp_plain_setter.
  - apply bounded_setter_intro. intros. by apply wp_plain_setter.
Qed.

Lemma embed_world_builder : builder embed_world (VRef 1) 2.
Proof.
  split.
  - exists 1%positive, (Table (Some EmbedBuilderClass) {[ "EmbedData" := VRef 2 ]} []).
    repeat split; [by vm_compute..|]. exists empty_table. by vm_compute.
  - intros k Hk. left.
    repeat (apply elem_of_cons in Hk as [->|Hk]; [by vm_compute|]).
    by apply elem_of_nil in Hk.
Qed.

Lemma bounded_setters_enforce_length_witness :
  (run (EmbedBuilder.SetTitle (VRef 1) (replicate_string 256 "x")) embed_world = Ok (VRef 1) ∧
   doc_field (exec (EmbedBuilder.SetTitle (VRef 1) (replicate_string 256 "x")) embed_world)
             2 "title" = VStr (replicate_string 256 "x")) ∧
  ((∃ msg, run (EmbedBuilder.SetTitle (VRef 1) (replicate_string 300 "x")) embed_world
           = Err msg) ∧
   exec (EmbedBuilder.SetTitle (VRef 1) (replicate_string 300 "x")) embed_world = embed_world).
Proof.
  destruct bounded_setters_enforce_length as (Htitle & _).
  split.
  - destruct (Htitle embed_world (VRef 1) (replicate_string 256 "x") 256) as [_ Hok];
      [by vm_compute|].
    apply Hok; [lia|]. apply embed_world_builder.
  - destruct (Htitle embed_world (VRef 1) (replicate_string 300 "x") 300) as [Hfail _];
      [by vm_compute|].
    apply Hfail. lia.
Defined.

(** ** The message of [SetDescription] *)

(** Every description that is too long is refused with the same message. *)
Lemma SetDescription_too_long w this s n :
  utf8_len s = inl n → 4096 < n →
  EmbedBuilder.SetDescription this s w
  = (Err "'description' must be less than 2048 characters", w).
Proof. intros Hn Hlt. by apply length_guard_fails with n. Qed.

(** C6: a description of 4097 code points exceeds the bound 4096 that
    [SetDescription] checks, and the error it raises names the field
    [description] but cites 2048, not the bound 4096 that was exceeded; the
    error of [SetTitle] cites its own bound 256. *)
Theorem SetDescription_error_cites_2048 :
  utf8_len (replicate_string 4097 "x") = inl 4097 ∧
  utf8_len (replicate_string 4096 "x") = inl 4096 ∧
  run (EmbedBuilder.SetDescription (VRef 1) (replicate_string 4096 "x")) embed_world
  = Ok (VRef 1) ∧
  run (EmbedBuilder.SetDescription (VRef 1) (replicate_string 4097 "x")) embed_world
  = Err "'description' must be less than 2048 characters" ∧
  index 0 "4096" "'description' must be less than 2048 characters" = None ∧
  run (EmbedBuilder.SetTitle (VRef 1) (replicate_string 257 "x")) embed_world
  = Err "'title' must be less than 256 characters".
Proof. repeat apply conj; by vm_compute. Qed.

(** ** Copy-on-write of [author] and [footer] *)

Lemma sub_key_cases c : sub_key c ∈ ["author"; "footer"; "fields"; "embeds"].
Proof. destruct c; in_list. Qed.

Lemma sub_key_not_EmbedData c : sub_key c ≠ "EmbedData".
Proof. by destruct c. Qed.

Lemma wp_sub_call w this d c :
  builder w this d → sub_valid c = true →
  wp (sub_call this c) w
     (λ o w', o = Ok this ∧ sub_post w d (sub_key c) (sub_name c) (VStr (sub_arg c)) w').
Proof.
  intros [Howns Hsub] Hvalid.
  pose proof (Hsub _ (sub_key_cases c)) as Hkey.
  destruct c; simpl in *.
  - destruct (utf8_len authorName) as [n|] eqn:Hn; [|done].
    eapply wp_length_guard; [done|lia|]. by apply wp_set_sub.
  - unfold EmbedBuilder.SetAuthorUrl. rewrite Hvalid.
    apply wp_bind, wp_assert_true. by apply wp_set_sub.
  - unfold EmbedBuilder.SetAuthorIconUrl. rewrite Hvalid.
    apply wp_bind, wp_assert_true. by apply wp_set_sub.
  - destruct (utf8_len footerText) as [n|] eqn:Hn; [|done].
    eapply wp_length_guard; [done|lia|]. by apply wp_set_sub.
  - unfold EmbedBuilder.SetFooterIconUrl. rewrite Hvalid.
    apply wp_bind, wp_assert_true. by apply wp_set_sub.
Qed.

Lemma table_or_nil_mono w w' v :
  (∀ l, is_Some (w_heap w !! l) → is_Some (w_heap w' !! l)) →
  table_or_nil w v → table_or_nil w' v.
Proof. intros Hmono [->|(l & -> & Hl)]; [by left|right; eauto]. Qed.

Lemma sub_post_mono w d key field x w' l :
  sub_post w d key field x w' →
  is_Some (w_heap w !! l) → is_Some (w_heap w' !! l).
Proof.
  intros (a & _ & _ & _ & _ & _ & _ & Hframe & Hd' & _) Hl.
  destruct (decide (l = d)) as [->|Hne]; [done|]. by rewrite Hframe.
Qed.

(** A sub-setter leaves a builder behind. *)
Lemma builder_sub_post w this d key field x w' :
  builder w this d → key ≠ "EmbedData" → sub_post w d key field x w' →
  builder w' this d.
Proof.
  intros [Howns Hsub] Hkey Hpost.
  pose proof Howns as (l & t & -> & Hl & Hd & Hsome).
  pose proof (sub_post_mono w d key field x w') as Hmono.
  destruct Hpost as (a & Ha & Hfresh & Hsa & Hx & Hrest & Hkeys & Hframe & Hd' & Hwarn).
  split.
  - destruct (decide (l = d)) as [->|Hne].
    + destruct Hd' as [td' Htd']. exists d, td'. repeat split; [done| |eauto].
      rewrite <- (doc_field_lookup _ _ _ "EmbedData" Htd'), Hkeys by done.
      by rewrite (doc_field_lookup _ _ _ _ Hl).
    + exists l, t. rewrite Hframe by eauto. done.
  - intros k Hk. destruct (decide (k = key)) as [->|Hne].
    + right. rewrite Ha. eauto.
    + rewrite Hkeys by done.
      eapply table_or_nil_mono; [|by apply Hsub].
      intros l0 Hl0. apply Hmono; [|done].
      exists a. repeat split; eauto.
Qed.

(** C5: after a first sub-setter of [author] or [footer], the sub-object
    [A] read from the document is a table that did not exist before; it
    holds the value just set and otherwise what the sub-object held before.
    A second sub-setter leaves the table [A] exactly as it was, while the
    document now shows the second value, and still the first value unless
    the second setter wrote the same key of the same sub-object; when both
    write the same sub-object the document points to another table than
    [A].  This holds for every pair of sub-setters, in either order. *)
Theorem sub_setters_copy_on_write (w : world) (this : val) (d : loc) (c1 c2 : sub_setter) :
  builder w this d → sub_valid c1 = true → sub_valid c2 = true →
  let w1 := exec (sub_call this c1) w in
  let w2 := exec (sub_call this c2) w1 in
  run (sub_call this c1) w = Ok this ∧
  run (sub_call this c2) w1 = Ok this ∧
  ∃ A, doc_field w1 d (sub_key c1) = VRef A ∧
       w_heap w !! A = None ∧
       doc_field w1 A (sub_name c1) = VStr (sub_arg c1) ∧
       (∀ f, f ≠ sub_name c1 → doc_field w1 A f = sub_field w d (sub_key c1) f) ∧
       is_Some (w_heap w1 !! A) ∧
       w_heap w2 !! A = w_heap w1 !! A ∧
       sub_field w2 d (sub_key c2) (sub_name c2) = VStr (sub_arg c2) ∧
       ((sub_key c1, sub_name c1) ≠ (sub_key c2, sub_name c2) →
        sub_field w2 d (sub_key c1) (sub_name c1) = VStr (sub_arg c1)) ∧
       (sub_key c1 = sub_key c2 → doc_field w2 d (sub_key c2) ≠ VRef A).
Proof.
  intros Hb Hv1 Hv2 w1 w2.
  pose proof (wp_sub_call w this d c1 Hb Hv1) as [Hrun1 Hpost1].
  fold w1 in Hpost1.
  assert (Hb1 : builder w1 this d).
  { eapply builder_sub_post; [done|apply sub_key_not_EmbedData|done]. }
  pose proof (wp_sub_call w1 this d c2 Hb1 Hv2) as [Hrun2 Hpost2].
  fold w2 in Hpost2.
  split; [done|]. split; [done|].
  destruct Hpost1 as (A & HA & Hfresh & HsA & Hx1 & Hrest1 & Hkeys1 & Hframe1 & Hd1 & _).
  destruct Hpost2 as (a2 & Ha2 & Hfresh2 & Hsa2 & Hx2 & Hrest2 & Hkeys2 & Hframe2 & Hd2 & _).
  destruct Hb as [(l & t & -> & Hl & Hd & Hsome) _].
  assert (HAd : A ≠ d) by (intros ->; rewrite Hfresh in Hsome; by destruct Hsome).
  assert (HA2 : w_heap w2 !! A = w_heap w1 !! A) by (by apply Hframe2).
  exists A. repeat split; try done.
  - unfold sub_field. by rewrite Ha2.
  - intros Hne. unfold sub_field.
    destruct (decide (sub_key c1 = sub_key c2)) as [Hk|Hk].
    + rewrite Hk, Ha2. rewrite Hrest2 by congruence.
      unfold sub_field. by rewrite <- Hk, HA.
    + rewrite Hkeys2, HA by done. unfold doc_field. rewrite HA2. apply Hx1.
  - intros Hk Heq. rewrite Ha2 in Heq. injection Heq as ->.
    rewrite Hfresh2 in HsA. by destruct HsA.
Qed.

Lemma sub_setters_copy_on_write_witness :
  let w1 := exec (EmbedBuilder.SetAuthorUrl (VRef 1) "https://example.com") embed_world in
  let w2 := exec (EmbedBuilder.SetAuthorName (VRef 1) "Ada") w1 in
  ∃ A, doc_field w1 2 "author" = VRef A ∧
       w_heap w2 !! A = w_heap w1 !! A ∧
       doc_field w1 A "url" = VStr "https://example.com" ∧
       doc_field w1 A "name" = VNil ∧
       sub_field w2 2 "author" "url" = VStr "https://example.com" ∧
       sub_field w2 2 "author" "name" = VStr "Ada".
Proof.
  intros w1 w2.
  destruct (sub_setters_copy_on_write embed_world (VRef 1) 2%positive
              (AuthorUrl "https://example.com") (AuthorName "Ada"))
    as (_ & _ & A & HA & _ & Hurl & Hrest & _ & Hsame & Hname & Hboth & _).
  - apply embed_world_builder.
  - by vm_compute.
  - by vm_compute.
  - exists A. repeat apply conj.
    + exact HA.
    + exact Hsame.
    + exact Hurl.
    + etrans; [by apply (Hrest "name")|]. by vm_compute.
    + by apply Hboth.
    + exact Hname.
Defined.

(** ** Flags of a message *)

Lemma flag_value_bit flag : flag_value flag = Z.shiftl 1 (flag_bit flag).
Proof. by destruct flag. Qed.

Lemma flag_bit_nonneg flag : 0 ≤ flag_bit flag.
Proof. destruct flag; simpl; lia. Qed.

Lemma testbit_shiftl_1 k n : 0 ≤ k → 0 ≤ n → Z.testbit (Z.shiftl 1 k) n = (k =? n).
Proof. intros Hk Hn. rewrite Z.shiftl_1_l. by apply Z.pow2_bits_eqb. Qed.

Lemma land_bit v k :
  0 ≤ k → Z.land v (Z.shiftl 1 k) = if Z.testbit v k then Z.shiftl 1 k else 0.
Proof.
  intros Hk. apply Z.bits_inj'. intros n Hn.
  rewrite Z.land_spec, testbit_shiftl_1 by done.
  destruct (Z.eqb_spec k n) as [->|Hne].
  - destruct (Z.testbit v n); simpl; [by rewrite testbit_shiftl_1, Z.eqb_refl|].
    by rewrite Z.bits_0.
  - rewrite andb_false_r. destruct (Z.testbit v k).
    + rewrite testbit_shiftl_1 by done. symmetry. by apply Z.eqb_neq.
    + by rewrite Z.bits_0.
Qed.

Lemma lor_bit v k : 0 ≤ k → Z.testbit v k = true → Z.lor v (Z.shiftl 1 k) = v.
Proof.
  intros Hk Hv. apply Z.bits_inj'. intros n Hn.
  rewrite Z.lor_spec, testbit_shiftl_1 by done.
  destruct (Z.eqb_spec k n) as [->|Hne]; [by rewrite Hv|apply orb_false_r].
Qed.

Lemma shiftl_1_pos k : 0 ≤ k → 0 < Z.shiftl 1 k.
Proof. intros Hk. rewrite Z.shiftl_1_l. by apply Z.pow_pos_nonneg. Qed.

(** Whether a flag intersects the set is whether its bit is set. *)
Lemma intersects_testbit v flag :
  negb (Z.land v (flag_value flag) =? 0) = Z.testbit v (flag_bit flag).
Proof.
  rewrite flag_value_bit, land_bit by apply flag_bit_nonneg.
  pose proof (shiftl_1_pos _ (flag_bit_nonneg flag)).
  destruct (Z.testbit v (flag_bit flag)); [|done].
  apply negb_true_iff, Z.eqb_neq. lia.
Qed.

Lemma flags_value_has_flags w this v : flags_value w this = Some v ↔ has_flags w this v.
Proof.
  split.
  - unfold flags_value, run, BitField.value_of, get_field, bind, deref, ret.
    destruct this as [| | | |l]; simpl; try done.
    destruct (w_heap w !! l) as [t|] eqn:Hl; simpl; [|done].
    destruct (hash_get t "Flags") as [| | | |f] eqn:Hf; simpl; try done.
    destruct (w_heap w !! f) as [tf|] eqn:Hlf; simpl; [|done].
    destruct (hash_get tf "Value") as [| |n| |] eqn:Hv; simpl; try done.
    intros [= <-]. by exists l, t, f, tf.
  - intros (l & t & f & tf & -> & Hl & Hf & Hlf & Hv).
    unfold flags_value.
    apply (wp_run_exec (let* flags := get_field (VRef l) "Flags" in BitField.value_of flags) w
             (λ o _, match o with Ok n => Some n | Err _ => None end = Some v)).
    unfold BitField.value_of. wp_steps. done.
Qed.

(** What [AddFlag] does to a builder whose flags read [v]. *)
Lemma AddFlag_spec w this v flag :
  has_flags w this v →
  (Z.testbit v (flag_bit flag) = true ∧
   ContentBuilder.AddFlag this flag w
   = (Ok this, World (w_heap w) (w_warn w ++ ["Flag already set."]))) ∨
  (Z.testbit v (flag_bit flag) = false ∧
   run (ContentBuilder.AddFlag this flag) w = Ok this ∧
   has_flags (exec (ContentBuilder.AddFlag this flag) w) this (Z.lor v (flag_value flag)) ∧
   w_warn (exec (ContentBuilder.AddFlag this flag) w) = w_warn w).
Proof.
  intros (l & t & f & tf & -> & Hl & Hf & Hlf & Hv).
  destruct (Z.testbit v (flag_bit flag)) eqn:Hbit; [left|right]; (split; [done|]).
  - unfold ContentBuilder.AddFlag, BitField.Intersects, BitField.value_of,
      bind, get_field, deref, ret, bind.
    rewrite Hl. simpl. rewrite Hf, Hlf. simpl. rewrite Hv. simpl.
    by rewrite intersects_testbit, Hbit.
  - apply (wp_run_exec (ContentBuilder.AddFlag (VRef l) flag) w
             (λ o w', o = Ok (VRef l) ∧
                      has_flags w' (VRef l) (Z.lor v (flag_value flag)) ∧
                      w_warn w' = w_warn w)).
    unfold ContentBuilder.AddFlag, BitField.Intersects, BitField.value_of.
    wp_steps. rewrite intersects_testbit, Hbit.
    unfold BitField.On, BitField.value_of, BitField.new. wp_steps. norm_fresh.
    split; [done|]. split; [|done].
    eexists l, _, _, _. split; [done|]. split; [heap_solve|].
    split; [apply hash_get_set|].
    split; [heap_solve|]. done.
Qed.

Lemma land_flag_in v flag :
  Z.land v (flag_value flag) = flag_value flag ↔ Z.testbit v (flag_bit flag) = true.
Proof.
  rewrite flag_value_bit, land_bit by apply flag_bit_nonneg.
  pose proof (shiftl_1_pos _ (flag_bit_nonneg flag)).
  destruct (Z.testbit v (flag_bit flag)); split; try done. lia.
Qed.

Lemma lor_flag_in v flag :
  Z.testbit (Z.lor v (flag_value flag)) (flag_bit flag) = true.
Proof.
  rewrite Z.lor_spec, flag_value_bit.
  rewrite testbit_shiftl_1, Z.eqb_refl by apply flag_bit_nonneg. apply orb_true_r.
Qed.

(** C8: adding a flag that is already in the set raises nothing, leaves
    every table (the flag set and the message document among them) as it
    was and only prints the warning; so [AddFlag(F)] twice gives the flag
    set of [AddFlag(F)] once, in which [F] is present and counted once. *)
Theorem AddFlag_idempotent (w : world) (this : val) (v : Z) (flag : MessageFlags) :
  flags_value w this = Some v →
  let w1 := exec (ContentBuilder.AddFlag this flag) w in
  let w2 := exec (ContentBuilder.AddFlag this flag) w1 in
  (Z.land v (flag_value flag) = flag_value flag →
   run (ContentBuilder.AddFlag this flag) w = Ok this ∧
   w_heap w1 = w_heap w ∧
   flags_value w1 this = Some v ∧
   w_warn w1 = (w_warn w ++ ["Flag already set."])%list) ∧
  run (ContentBuilder.AddFlag this flag) w = Ok this ∧
  run (ContentBuilder.AddFlag this flag) w1 = Ok this ∧
  flags_value w1 this = Some (Z.lor v (flag_value flag)) ∧
  flags_value w2 this = flags_value w1 this ∧
  w_heap w2 = w_heap w1 ∧
  w_warn w2 = (w_warn w1 ++ ["Flag already set."])%list ∧
  Z.land (Z.lor v (flag_value flag)) (flag_value flag) = flag_value flag ∧
  (Z.land v (flag_value flag) = 0 → Z.lor v (flag_value flag) = v + flag_value flag).
Proof.
  intros Hv w1 w2. apply flags_value_has_flags in Hv.
  assert (H1 : run (ContentBuilder.AddFlag this flag) w = Ok this ∧
               has_flags w1 this (Z.lor v (flag_value flag)) ∧
               (Z.testbit v (flag_bit flag) = true →
                w_heap w1 = w_heap w ∧ has_flags w1 this v ∧
                w_warn w1 = (w_warn w ++ ["Flag already set."])%list)).
  { subst w1. unfold run, exec.
    destruct (AddFlag_spec w this v flag Hv) as [[Hbit Heq]|(Hbit & Hrun & Hflags & _)].
    - rewrite Heq; simpl. split; [done|].
      assert (Hsame : has_flags (World (w_heap w) (w_warn w ++ ["Flag already set."])) this v)
        by exact Hv.
      split; [|done].
      by rewrite flag_value_bit, lor_bit by (done || apply flag_bit_nonneg).
    - split; [done|]. split; [done|]. by rewrite Hbit. }
  destruct H1 as (Hrun1 & Hflags1 & Hsame1).
  assert (H2 : run (ContentBuilder.AddFlag this flag) w1 = Ok this ∧
               w_heap w2 = w_heap w1 ∧ has_flags w2 this (Z.lor v (flag_value flag)) ∧
               w_warn w2 = (w_warn w1 ++ ["Flag already set."])%list).
  { subst w2. unfold run, exec.
    destruct (AddFlag_spec w1 this _ flag Hflags1) as [[Hbit Heq]|(Hbit & _)].
    - rewrite Heq; simpl. split; [done|]. split; [done|]. split; [exact Hflags1|done].
    - by rewrite lor_flag_in in Hbit. }
  destruct H2 as (Hrun2 & Hheap2 & Hflags2 & Hwarn2).
  apply flags_value_has_flags in Hflags1, Hflags2.
  repeat apply conj; try done.
  - intros Hin%land_flag_in. destruct (Hsame1 Hin) as (? & ?%flags_value_has_flags & ?).
    done.
  - congruence.
  - apply land_flag_in, lor_flag_in.
  - intros Hdisj. symmetry. by apply Z.add_nocarry_lor.
Qed.

Lemma AddFlag_idempotent_witness :
  let w1 := exec (ContentBuilder.AddFlag (VRef 1) SUPPRESS_EMBEDS) flagged_world in
  run (ContentBuilder.AddFlag (VRef 1) SUPPRESS_EMBEDS) flagged_world = Ok (VRef 1) ∧
  w_heap w1 = w_heap flagged_world ∧
  flags_value w1 (VRef 1) = Some 4 ∧
  w_warn w1 = ["Flag already set."].
Proof.
  intros w1.
  destruct (AddFlag_idempotent flagged_world (VRef 1) 4 SUPPRESS_EMBEDS) as [Hin _];
    [by vm_compute|].
  destruct Hin as (Hrun & Hheap & Hflags & Hwarn); [by vm_compute|].
  repeat apply conj; [exact Hrun|exact Hheap|exact Hflags|exact Hwarn].
Defined.

(** ** Embeds of a message *)

Lemma Is_true_inv w v :
  run (EmbedBuilder.Is v) w = Ok true →
  ∃ e t, v = VRef e ∧ w_heap w !! e = Some t ∧ tmeta t = Some EmbedBuilderClass.
Proof.
  unfold run, EmbedBuilder.Is, instanceof, inspect; simpl.
  destruct v as [| | | |e]; try done.
  destruct (w_heap w !! e) as [t|] eqn:He; [|done].
  intros [= Hmeta%bool_decide_eq_true]. eauto.
Qed.

Lemma AddEmbed_refuses w this v :
  run (EmbedBuilder.Is v) w = Ok false →
  ContentBuilder.AddEmbed this v w = (Err "Embed must be an EmbedBuilder", w).
Proof.
  unfold run, ContentBuilder.AddEmbed, EmbedBuilder.Is, instanceof, inspect, bind; simpl.
  by intros [= ->].
Qed.

(** What [AddEmbed] leaves behind: [embeds] is a table that did not exist
    before, holding the former elements and then the embed's [EmbedData]. *)
Lemma wp_AddEmbed w this d v :
  owns w this d → table_or_nil w (doc_field w d "embeds") →
  run (EmbedBuilder.Is v) w = Ok true →
  wp (ContentBuilder.AddEmbed this v) w
     (λ o w', o = Ok this ∧
        ∃ r e, v = VRef e ∧ doc_field w' d "embeds" = VRef r ∧ w_heap w !! r = None ∧
               array_of w' (VRef r)
               = tarr (arr_push (Table None ∅ (array_of w (doc_field w d "embeds")))
                                (doc_field w e "EmbedData")) ∧
               (∀ k, k ≠ "embeds" → doc_field w' d k = doc_field w d k) ∧
               (∀ l, is_Some (w_heap w !! l) → l ≠ d → w_heap w' !! l = w_heap w !! l)).
Proof.
  intros (l & t & -> & Hl & Hd & [td Htd]) Hsub (e & te & -> & He & Hmeta)%Is_true_inv.
  rewrite (doc_field_lookup _ _ _ _ Htd) in Hsub.
  unfold ContentBuilder.AddEmbed, EmbedBuilder.Is, instanceof.
  wp_step. wp_step. rewrite He, Hmeta, bool_decide_eq_true_2 by done.
  wp_step. apply wp_assert_true.
  destruct Hsub as [Hnil|(a0 & Ha0 & [ta Hta])].
  - wp_steps. unfold nullish, new_table. wp_steps. norm_fresh.
    split; [done|]. eexists _, e. split; [done|]. split; [heap_solve|].
    rewrite upd_upd. repeat split.
    + done.
    + unfold array_of. heap_solve.
      by rewrite (doc_field_lookup _ _ _ _ Htd), Hnil, (doc_field_lookup _ _ _ _ He).
    + intros k Hk. heap_solve. by rewrite (doc_field_lookup _ _ _ _ Htd).
    + intros l1 [t1 Hl1] Hne. heap_solve.
  - wp_steps. unfold nullish. wp_steps. norm_fresh.
    split; [done|]. eexists _, e. split; [done|]. split; [heap_solve|].
    rewrite upd_upd. repeat split.
    + done.
    + unfold array_of. heap_solve.
      by rewrite (doc_field_lookup _ _ _ _ Htd), Ha0, Hta, (doc_field_lookup _ _ _ _ He).
    + intros k Hk. heap_solve. by rewrite (doc_field_lookup _ _ _ _ Htd).
    + intros l1 [t1 Hl1] Hne. heap_solve.
Qed.

(** C9: a value that fails the [EmbedBuilder.Is] check makes [AddEmbed]
    raise its error and leaves the store, and so the embeds of the message,
    as it was; with an instance of [EmbedBuilder] the call succeeds. *)
Theorem AddEmbed_checks_instance (w : world) (this v : val) (d : loc) :
  (run (EmbedBuilder.Is v) w = Ok false →
   run (ContentBuilder.AddEmbed this v) w = Err "Embed must be an EmbedBuilder" ∧
   exec (ContentBuilder.AddEmbed this v) w = w ∧
   array_of (exec (ContentBuilder.AddEmbed this v) w)
            (doc_field (exec (ContentBuilder.AddEmbed this v) w) d "embeds")
   = array_of w (doc_field w d "embeds")) ∧
  (run (EmbedBuilder.Is v) w = Ok true → builder w this d →
   run (ContentBuilder.AddEmbed this v) w = Ok this).
Proof.
  split.
  - intros Hno. unfold run, exec. by rewrite (AddEmbed_refuses w this v Hno).
  - intros Hyes [Howns Hsub].
    apply (wp_run_exec (ContentBuilder.AddEmbed this v) w (λ o _, o = Ok this)).
    eapply wp_mono; [apply (wp_AddEmbed w this d v); [done| |done]|].
    + apply Hsub. in_list.
    + by intros o w' [-> _].
Qed.

Lemma message_world_builder : builder message_world (VRef 1) 3.
Proof.
  split.
  - exists 1%positive,
      (Table (Some ContentBuilderClass) {[ "EmbedData" := VRef 3; "Flags" := VRef 4 ]} []).
    repeat split; [by vm_compute..|].
    exists (Table None {[ "attachments" := VRef 2 ]} []). by vm_compute.
  - intros k Hk. left.
    repeat (apply elem_of_cons in Hk as [->|Hk]; [by vm_compute|]).
    by apply elem_of_nil in Hk.
Qed.

Lemma AddEmbed_checks_instance_witness :
  run (ContentBuilder.AddEmbed (VRef 1) (VStr "not a builder")) message_world
  = Err "Embed must be an EmbedBuilder" ∧
  exec (ContentBuilder.AddEmbed (VRef 1) (VRef 1)) message_world = message_world ∧
  run (ContentBuilder.AddEmbed (VRef 1) (VRef 5)) message_world = Ok (VRef 1).
Proof.
  destruct (AddEmbed_checks_instance message_world (VRef 1) (VStr "not a builder") 3%positive)
    as [Hno _].
  destruct (AddEmbed_checks_instance message_world (VRef 1) (VRef 1) 3%positive) as [Hno' _].
  destruct (AddEmbed_checks_instance message_world (VRef 1) (VRef 5) 3%positive) as [_ Hyes].
  split; [|split].
  - apply Hno. by vm_compute.
  - apply Hno'. by vm_compute.
  - apply Hyes; [by vm_compute|apply message_world_builder].
Defined.

Lemma owns_frame w w' this d :
  owns w this d →
  (∀ l, is_Some (w_heap w !! l) →
        ∃ t t', w_heap w !! l = Some t ∧ w_heap w' !! l = Some t' ∧
                hash_get t' "EmbedData" = hash_get t "EmbedData") →
  owns w' this d.
Proof.
  intros (l & t & -> & Hl & Hd & Hsome) Hframe.
  destruct (Hframe l) as (t0 & t' & Ht0 & Ht' & Hkeep); [eauto|].
  destruct (Hframe d Hsome) as (_ & td' & _ & Htd' & _).
  exists l, t'. repeat split; [done| |eauto]. congruence.
Qed.

(** The claim of C1 fails: the element that [AddEmbed] stored changes when
    the embed builder is mutated afterwards. *)
Lemma AddEmbed_snapshot_counterexample :
  let w1 := exec (ContentBuilder.AddEmbed (VRef 1) (VRef 5)) message_world in
  let w2 := exec (EmbedBuilder.SetTitle (VRef 5) "later") w1 in
  run (ContentBuilder.AddEmbed (VRef 1) (VRef 5)) message_world = Ok (VRef 1) ∧
  run (EmbedBuilder.SetTitle (VRef 5) "later") w1 = Ok (VRef 5) ∧
  last_embed w1 3 = Some (VRef 6) ∧
  last_embed w2 3 = Some (VRef 6) ∧
  doc_field w1 6 "title" = VNil ∧
  doc_field w2 6 "title" = VStr "later" ∧
  w_heap w2 !! 6%positive ≠ w_heap w1 !! 6%positive.
Proof.
  intros w1 w2. repeat apply conj; by vm_compute.
Qed.

(** C1, as the code has it: [AddEmbed] succeeds and the last element of the
    embeds of the message is the embed builder's document itself, stored by
    reference and not copied; it still is after a later [SetTitle] on the
    embed builder, whose title then shows in that stored element. *)
Theorem AddEmbed_stores_document_by_reference
    (w : world) (this embed : val) (d de : loc) (title : string) (n : Z) :
  builder w this d → owns w embed de → run (EmbedBuilder.Is embed) w = Ok true →
  utf8_len title = inl n → n ≤ 256 →
  let w1 := exec (ContentBuilder.AddEmbed this embed) w in
  let w2 := exec (EmbedBuilder.SetTitle embed title) w1 in
  run (ContentBuilder.AddEmbed this embed) w = Ok this ∧
  last_embed w1 d = Some (VRef de) ∧
  owns w1 embed de ∧
  run (EmbedBuilder.SetTitle embed title) w1 = Ok embed ∧
  last_embed w2 d = Some (VRef de) ∧
  owns w2 embed de ∧
  doc_field w2 de "title" = VStr title.
Proof.
  intros [Howns Hsub] Hembed His Hn Hle w1 w2.
  assert (Hembeds : table_or_nil w (doc_field w d "embeds")) by (apply Hsub; in_list).
  pose proof (wp_AddEmbed w this d embed Howns Hembeds His) as [Hrun1 Hpost].
  fold w1 in Hpost.
  destruct Hpost as (r & e & -> & Hr & Hfresh & Harr & Hkeys & Hframe).
  pose proof Hembed as (e' & te & [= <-] & He & Hde & [tde Htde]).
  pose proof Howns as (l & t & -> & Hl & Hd & [td Htd]).
  assert (Hrd : r ≠ de) by (intros ->; congruence).
  assert (Hlast1 : last_embed w1 d = Some (VRef de)).
  { unfold last_embed. rewrite Hr, Harr, (doc_field_lookup _ _ _ _ He), Hde.
    simpl. apply last_snoc. }
  assert (Hd1 : is_Some (w_heap w1 !! d)).
  { destruct (w_heap w1 !! d) eqn:Hw1d; [eauto|].
    unfold doc_field in Hr. by rewrite Hw1d in Hr. }
  assert (Hembed1 : owns w1 (VRef e) de).
  { apply (owns_frame w); [done|]. intros l0 [t0 Hl0].
    destruct (decide (l0 = d)) as [->|Hne].
    - destruct Hd1 as [td1 Htd1]. exists t0, td1. repeat split; [done..|].
      rewrite <- (doc_field_lookup _ _ _ "EmbedData" Htd1), Hkeys by done.
      by rewrite (doc_field_lookup _ _ _ _ Hl0).
    - exists t0, t0. by rewrite Hframe by eauto. }
  split; [done|]. split; [done|]. split; [done|].
  pose proof Hembed1 as (e1 & te1 & [= <-] & He1 & Hde1 & [tde1 Htde1]).
  assert (Hset : EmbedBuilder.SetTitle (VRef e) title w1
                 = (Ok (VRef e), upd w1 de (hash_set tde1 "title" (VStr title)))).
  { unfold EmbedBuilder.SetTitle. rewrite (length_guard_passes title n 256 _ _ w1 Hn Hle).
    unfold bind, get_field, deref, bind, ret, set_field. rewrite He1. simpl.
    by rewrite Hde1, Htde1. }
  subst w2. unfold run, exec. rewrite Hset. simpl. split; [done|].
  split; [|split].
  - unfold last_embed in *. destruct (decide (d = de)) as [<-|Hne].
    + rewrite doc_field_upd_eq, hash_get_set_ne by done.
      rewrite <- (doc_field_lookup _ _ _ "embeds" Htde1), Hr in *.
      unfold array_of in *. by rewrite lookup_upd_ne.
    + rewrite doc_field_upd_ne, Hr in * by done.
      unfold array_of in *. by rewrite lookup_upd_ne.
  - apply owns_upd; [done|]. intros t0 Ht0. rewrite Htde1 in Ht0. injection Ht0 as <-.
    by apply hash_get_set_ne.
  - apply doc_field_stored.
Qed.

Lemma AddEmbed_stores_document_by_reference_witness :
  let w1 := exec (ContentBuilder.AddEmbed (VRef 1) (VRef 5)) message_world in
  let w2 := exec (EmbedBuilder.SetTitle (VRef 5) "later") w1 in
  last_embed w1 3 = Some (VRef 6) ∧
  last_embed w2 3 = Some (VRef 6) ∧
  doc_field w2 6 "title" = VStr "later".
Proof.
  intros w1 w2.
  destruct (AddEmbed_stores_document_by_reference message_world (VRef 1) (VRef 5)
              3%positive 6%positive "later" 5)
    as (_ & Hlast1 & _ & _ & Hlast2 & _ & Htitle).
  - apply message_world_builder.
  - exists 5%positive, (Table (Some EmbedBuilderClass) {[ "EmbedData" := VRef 6 ]} []).
    repeat split; [by vm_compute..|]. exists empty_table. by vm_compute.
  - by vm_compute.
  - by vm_compute.
  - lia.
  - split; [exact Hlast1|]. split; [exact Hlast2|exact Htitle].
Defined.

(** ** Batches of fields *)

(** [AddFields] refuses a batch with an element that is not a field, and
    leaves the store as it was. *)
Lemma AddFields_refuses w this args :
  run (EmbedBuilder.IsArrayOfFieldData args) w = Ok false →
  EmbedBuilder.AddFields this args w = (Err "'args' must be an array of IFieldData", w).
Proof.
  unfold run, EmbedBuilder.AddFields, EmbedBuilder.IsArrayOfFieldData, inspect, bind; simpl.
  by intros [= ->].
Qed.

(** On a batch of fields the two methods do the same. *)
Lemma AddFields_SetFields_valid w this args :
  run (EmbedBuilder.IsArrayOfFieldData args) w = Ok true →
  EmbedBuilder.AddFields this args w = EmbedBuilder.SetFields this args w.
Proof.
  unfold run, EmbedBuilder.AddFields, EmbedBuilder.SetFields,
    EmbedBuilder.IsArrayOfFieldData, inspect; simpl.
  intros [= Hok]. unfold bind at 1. simpl. rewrite Hok. unfold bind at 1. by simpl.
Qed.

(** C2: on a batch whose only element has a [name] but no [value],
    [AddFields] raises and appends nothing, while [SetFields], its documented
    alias, succeeds and appends the element. *)
Theorem SetFields_skips_validation :
  EmbedBuilder.IsFieldData (w_heap nameless_world) (VRef 3) = false ∧
  run (EmbedBuilder.AddFields (VRef 1) [VRef 3]) nameless_world
  = Err "'args' must be an array of IFieldData" ∧
  exec (EmbedBuilder.AddFields (VRef 1) [VRef 3]) nameless_world = nameless_world ∧
  doc_field nameless_world 2 "fields" = VNil ∧
  run (EmbedBuilder.SetFields (VRef 1) [VRef 3]) nameless_world = Ok (VRef 1) ∧
  array_of (exec (EmbedBuilder.SetFields (VRef 1) [VRef 3]) nameless_world)
           (doc_field (exec (EmbedBuilder.SetFields (VRef 1) [VRef 3]) nameless_world)
                      2 "fields")
  = [VRef 3].
Proof. repeat apply conj; by vm_compute. Qed.

(** ** What the calls of the library keep *)

Lemma keeps_refl b w : keeps b w w.
Proof. intros l t Hl. by exists t. Qed.

Lemma keeps_trans b w1 w2 w3 : keeps b w1 w2 → keeps b w2 w3 → keeps b w1 w3.
Proof.
  intros H12 H23 l t Hl.
  destruct (H12 l t Hl) as (t2 & Hl2 & He2 & Hv2 & Hf2).
  destruct (H23 l t2 Hl2) as (t3 & Hl3 & He3 & Hv3 & Hf3).
  exists t3. repeat split; [done|congruence..|].
  intros Hb. rewrite Hf3, Hf2; done.
Qed.

Lemma keeps_warn b w msgs : keeps b w (World (w_heap w) msgs).
Proof. intros l t Hl. by exists t. Qed.

(** Replacing a table by one that agrees on the protected keys. *)
Lemma keeps_upd b w l t' :
  (∀ t, w_heap w !! l = Some t →
        hash_get t' "EmbedData" = hash_get t "EmbedData" ∧
        hash_get t' "Value" = hash_get t "Value" ∧
        (b = Some l → hash_get t' "Flags" = hash_get t "Flags")) →
  keeps b w (upd w l t').
Proof.
  intros Hsame l0 t0 Hl0. destruct (decide (l = l0)) as [->|Hne].
  - exists t'. rewrite lookup_upd_eq. split; [done|]. by apply Hsame.
  - exists t0. by rewrite lookup_upd_ne.
Qed.

Lemma preserving_ret {A} b (a : A) : preserving b (ret a).
Proof. intros w. apply keeps_refl. Qed.

Lemma preserving_error {A} b msg : preserving b (@error A msg).
Proof. intros w. apply keeps_refl. Qed.

Lemma preserving_bind {A B} b (m : M A) (f : A → M B) :
  preserving b m → (∀ a, preserving b (f a)) → preserving b (bind m f).
Proof.
  intros Hm Hf w. specialize (Hm w). unfold exec, bind in *.
  destruct (m w) as [[a|e] w1]; simpl in *; [|done].
  eapply keeps_trans; [done|]. apply Hf.
Qed.

Lemma preserving_assert b cond msg : preserving b (assert cond msg).
Proof. destruct cond; [apply preserving_ret|apply preserving_error]. Qed.

Lemma preserving_error_if b cond msg : preserving b (error_if cond msg).
Proof. destruct cond; [apply preserving_error|apply preserving_ret]. Qed.

Lemma preserving_inspect {A} b (f : world → A) : preserving b (inspect f).
Proof. intros w. apply keeps_refl. Qed.

Lemma preserving_warn b msg : preserving b (warn msg).
Proof. intros w. apply keeps_warn. Qed.

Lemma preserving_alloc b t : preserving b (alloc t).
Proof.
  intros w. unfold exec, alloc; simpl. apply keeps_upd. intros t0 Ht0.
  pose proof (is_fresh (dom (w_heap w))) as Hfresh.
  apply not_elem_of_dom in Hfresh. congruence.
Qed.

Lemma preserving_deref b v : preserving b (deref v).
Proof.
  intros w. unfold exec, deref. destruct v; try apply keeps_refl.
  destruct (w_heap w !! l); apply keeps_refl.
Qed.

Lemma preserving_GetUtf8Length b s : preserving b (GetUtf8Length s).
Proof. unfold GetUtf8Length. destruct (utf8_len s); [apply preserving_ret|apply preserving_error]. Qed.

(** A write is harmless when it is not to a protected key. *)
Lemma preserving_set_field b v k x :
  k ≠ "EmbedData" → k ≠ "Value" → (k = "Flags" → ∀ l, b = Some l → v ≠ VRef l) →
  preserving b (set_field v k x).
Proof.
  intros He Hv Hf w. unfold exec, set_field. destruct v; try apply keeps_refl.
  destruct (w_heap w !! l) as [t|] eqn:Hl; [|apply keeps_refl]. simpl.
  apply keeps_upd. intros t0 Ht0. rewrite Hl in Ht0. injection Ht0 as <-.
  rewrite !hash_get_set_ne by done. repeat split.
  intros Hb. destruct (decide (k = "Flags")) as [->|Hne].
  - by destruct (Hf eq_refl l Hb).
  - by rewrite hash_get_set_ne.
Qed.

Lemma preserving_array_push b v x : preserving b (array_push v x).
Proof.
  intros w. unfold exec, array_push. destruct v; try apply keeps_refl.
  destruct (w_heap w !! l) as [t|] eqn:Hl; [|apply keeps_refl]. simpl.
  apply keeps_upd. intros t0 Ht0. rewrite Hl in Ht0. injection Ht0 as <-. done.
Qed.

Lemma preserving_push_all b v values : preserving b (push_all v values).
Proof.
  induction values as [|x values IH]; simpl; [apply preserving_ret|].
  apply preserving_bind; [apply preserving_array_push|done].
Qed.

Lemma preserving_nullish b a (m : M val) : preserving b m → preserving b (nullish a m).
Proof. intros Hm. destruct a; simpl; try apply preserving_ret. done. Qed.

Create HintDb preserving.
Global Hint Resolve preserving_ret preserving_error preserving_assert preserving_error_if
  preserving_inspect preserving_warn preserving_alloc preserving_deref
  preserving_GetUtf8Length preserving_array_push preserving_push_all : preserving.

Ltac preserve :=
  repeat first
    [ solve [auto with preserving]
    | apply preserving_bind; [|intros ?]
    | apply preserving_nullish
    | apply preserving_set_field; [discriminate|discriminate|discriminate]
    | match goal with
      | |- preserving _ (match ?x with _ => _ end) => destruct x
      | |- preserving _ (if ?x then _ else _) => destruct x
      end ].

Lemma preserving_get_field b v k : preserving b (get_field v k).
Proof. unfold get_field. preserve. Qed.

Lemma preserving_table_clone b v : preserving b (table_clone v).
Proof. unfold table_clone. preserve. Qed.

Global Hint Resolve preserving_get_field preserving_table_clone : preserving.

Lemma preserving_Append b v values : preserving b (Append v values).
Proof. unfold Append. preserve. Qed.

Global Hint Resolve preserving_Append : preserving.

(** A constructor only writes to the tables it has just made. *)
Lemma preserving_EmbedBuilder_new b : preserving b EmbedBuilder.new.
Proof.
  intros w. apply (wp_run_exec EmbedBuilder.new w (λ _ w', keeps b w w')).
  unfold EmbedBuilder.new, new_table. wp_steps. norm_fresh.
  intros l1 t1 Hl1. exists t1. norm_fresh. split; [heap_solve|done].
Qed.

Lemma preserving_BitField_new b value : preserving b (BitField.new value).
Proof. unfold BitField.new. preserve. Qed.

Lemma preserving_ContentBuilder_new b : preserving b ContentBuilder.new.
Proof.
  intros w. apply (wp_run_exec ContentBuilder.new w (λ _ w', keeps b w w')).
  unfold ContentBuilder.new, new_table, BitField.new. wp_steps. norm_fresh.
  intros l4 t4 Hl4. exists t4. norm_fresh. split; [heap_solve|done].
Qed.

Global Hint Resolve preserving_EmbedBuilder_new preserving_BitField_new
  preserving_ContentBuilder_new : preserving.

Lemma preserving_new_table b : preserving b new_table.
Proof. apply preserving_alloc. Qed.

Lemma preserving_Is b value : preserving b (EmbedBuilder.Is value).
Proof. apply preserving_inspect. Qed.

Lemma preserving_IsArrayOfFieldData b args :
  preserving b (EmbedBuilder.IsArrayOfFieldData args).
Proof. apply preserving_inspect. Qed.

Lemma preserving_url_literal b url : preserving b (EmbedBuilder.url_literal url).
Proof. apply preserving_alloc. Qed.

Lemma preserving_field_literal b inline name value :
  preserving b (EmbedBuilder.field_literal inline name value).
Proof. apply preserving_alloc. Qed.

Global Hint Resolve preserving_new_table preserving_Is preserving_IsArrayOfFieldData
  preserving_url_literal preserving_field_literal : preserving.

Lemma preserving_set_sub b this key field x :
  key ≠ "EmbedData" → key ≠ "Value" → key ≠ "Flags" →
  field ≠ "EmbedData" → field ≠ "Value" → field ≠ "Flags" →
  preserving b (EmbedBuilder.set_sub this key field x).
Proof.
  intros. unfold EmbedBuilder.set_sub.
  repeat first
    [ solve [auto with preserving]
    | apply preserving_bind; [|intros ?]
    | apply preserving_nullish
    | apply preserving_set_field; [done|done|done] ].
Qed.

Ltac preserve_method :=
  repeat first
    [ solve [auto with preserving]
    | apply preserving_set_sub; discriminate
    | apply preserving_bind; [|intros ?]
    | apply preserving_nullish
    | apply preserving_set_field; [discriminate|discriminate|discriminate]
    | match goal with
      | |- preserving _ (match ?x with _ => _ end) => destruct x
      | |- preserving _ (if ?x then _ else _) => destruct x
      end ].

Lemma preserving_AddFlag b this flag :
  (∀ l, b = Some l → this ≠ VRef l) →
  preserving b (ContentBuilder.AddFlag this flag).
Proof.
  intros Hother.
  unfold ContentBuilder.AddFlag, BitField.Intersects, BitField.On, BitField.value_of.
  repeat first
    [ solve [auto with preserving]
    | apply preserving_bind; [|intros ?]
    | apply preserving_set_field; [discriminate|discriminate|by intros _]
    | match goal with
      | |- preserving _ (match ?x with _ => _ end) => destruct x
      | |- preserving _ (if ?x then _ else _) => destruct x
      end ].
Qed.

Lemma preserving_perform b c :
  (∀ l flag, b = Some l → c ≠ C_AddFlag (VRef l) flag) →
  preserving b (perform c).
Proof.
  intros Hc. destruct c; simpl;
    try (apply preserving_AddFlag; intros l -> ->; by eapply Hc);
    try solve [auto with preserving].
  all: match goal with |- preserving _ (?f _) => unfold f
                     | |- preserving _ (?f _ _) => unfold f
                     | |- preserving _ (?f _ _ _) => unfold f
                     | |- preserving _ (?f _ _ _ _) => unfold f end.
  all: try unfold EmbedBuilder.SetUrl.
  all: preserve_method.
Qed.

Lemma keeps_has_flags b w w' v :
  keeps (Some b) w w' → has_flags w (VRef b) v → has_flags w' (VRef b) v.
Proof.
  intros Hk (l & t & f & tf & [= <-] & Hl & Hf & Hlf & Hv).
  destruct (Hk b t Hl) as (t' & Hl' & _ & _ & Hf').
  destruct (Hk f tf Hlf) as (tf' & Hlf' & _ & Hv' & _).
  exists b, t', f, tf'. repeat split; [done| |done|congruence].
  by rewrite Hf'.
Qed.

Lemma keeps_owns b w w' this d : keeps b w w' → owns w this d → owns w' this d.
Proof.
  intros Hk (l & t & -> & Hl & Hd & [td Htd]).
  destruct (Hk l t Hl) as (t' & Hl' & He' & _).
  destruct (Hk d td Htd) as (td' & Htd' & _).
  exists l, t'. repeat split; [done|congruence|eauto].
Qed.

Lemma keeps_content_builder b w w' v :
  keeps (Some b) w w' → content_builder w b v → content_builder w' b v.
Proof.
  intros Hk [Hflags [d Howns]]. split; [by eapply keeps_has_flags|].
  exists d. by eapply keeps_owns.
Qed.

Lemma ContentBuilder_new_spec w0 :
  ∃ b, run ContentBuilder.new w0 = Ok (VRef b) ∧
       content_builder (exec ContentBuilder.new w0) b 0.
Proof.
  apply (wp_run_exec ContentBuilder.new w0
           (λ o w', ∃ b, o = Ok (VRef b) ∧ content_builder w' b 0)).
  unfold ContentBuilder.new, new_table, BitField.new. wp_steps. norm_fresh.
  eexists. split; [done|]. split.
  - eexists _, _, _, _. split; [done|]. split; [heap_solve|].
    split; [apply hash_get_set|]. split; [heap_solve|]. done.
  - eexists. eexists _, _. split; [done|]. split; [heap_solve|].
    split; [by rewrite hash_get_set_ne, hash_get_set|]. heap_solve.
Qed.

Lemma content_builder_other w b v c :
  (∀ flag, c ≠ C_AddFlag (VRef b) flag) →
  content_builder w b v → content_builder (exec (perform c) w) b v.
Proof.
  intros Hother Hcb. eapply keeps_content_builder; [|done].
  apply preserving_perform. intros l flag [= <-]. apply Hother.
Qed.

Lemma content_builder_step w b v c :
  content_builder w b v →
  content_builder (exec (perform c) w) b (flag_step (VRef b) v c).
Proof.
  intros Hcb.
  destruct c; try (by apply content_builder_other).
  simpl flag_step. destruct (decide (this = VRef b)) as [->|Hne].
  - simpl. destruct Hcb as [Hflags [d Howns]].
    destruct (AddFlag_spec w (VRef b) v flag Hflags) as [[Hbit Heq]|(Hbit & _ & Hnew & _)].
    + unfold exec. rewrite Heq; simpl.
      rewrite flag_value_bit, lor_bit by (done || apply flag_bit_nonneg).
      split; [exact Hflags|]. by exists d.
    + split; [done|]. exists d. eapply (keeps_owns None); [|done].
      apply preserving_AddFlag. by intros.
  - apply content_builder_other; [|done]. by intros flag' [= -> _].
Qed.

Lemma content_builder_perform_all cs w b v :
  content_builder w b v →
  content_builder (perform_all cs w) b (fold_left (flag_step (VRef b)) cs v).
Proof.
  revert w v. induction cs as [|c cs IH]; intros w v Hcb; simpl; [done|].
  by apply IH, content_builder_step.
Qed.

Lemma flags_added_none this cs v :
  no_flag_added this cs → fold_left (flag_step this) cs v = v.
Proof.
  induction cs as [|c cs IH]; intros Hnone; simpl; [done|].
  assert (Hc : flag_step this v c = v).
  { destruct c; simpl; try done. rewrite decide_False; [done|].
    intros ->. apply (Hnone flag). apply list_elem_of_here. }
  rewrite Hc. apply IH. intros flag Hin. apply (Hnone flag).
  by apply list_elem_of_further.
Qed.

Lemma wp_Serialize w b v :
  content_builder w b v →
  wp (ContentBuilder.Serialize (VRef b)) w
     (λ o w', ∃ r, o = Ok (VRef r) ∧ doc_field w' r "flags" = VNum v).
Proof.
  intros [(l & t & f & tf & [= <-] & Hl & Hf & Hlf & Hv)
          (d & l' & t' & [= <-] & Hl' & Hd & [td Htd])].
  rewrite Hl in Hl'. injection Hl' as <-.
  unfold ContentBuilder.Serialize. wp_steps. norm_fresh.
  eexists. split; [done|]. heap_solve.
Qed.

Lemma wp_SerializeAsJson enc w b v :
  content_builder w b v →
  wp (ContentBuilder.SerializeAsJson enc (VRef b)) w
     (λ o w', ∃ r, o = Ok (VStr (enc w' (VRef r))) ∧ doc_field w' r "flags" = VNum v).
Proof.
  intros [(l & t & f & tf & [= <-] & Hl & Hf & Hlf & Hv)
          (d & l' & t' & [= <-] & Hl' & Hd & [td Htd])].
  rewrite Hl in Hl'. injection Hl' as <-.
  unfold ContentBuilder.SerializeAsJson. wp_steps. norm_fresh.
  eexists. split; [done|]. heap_solve.
Qed.

Lemma wp_ToJson enc w b v :
  content_builder w b v →
  wp (ContentBuilder.ToJson enc (VRef b)) w
     (λ o w', ∃ r, o = Ok (VStr (enc w' (VRef r))) ∧ doc_field w' r "flags" = VNum v).
Proof.
  intros [(l & t & f & tf & [= <-] & Hl & Hf & Hlf & Hv)
          (d & l' & t' & [= <-] & Hl' & Hd & [td Htd])].
  rewrite Hl in Hl'. injection Hl' as <-.
  unfold ContentBuilder.ToJson. wp_steps. norm_fresh.
  eexists. split; [done|]. heap_solve.
Qed.

(** C10: in every store reached from [new ContentBuilder()] by calls of the
    library, [Serialize] returns a table that has the key [flags], and so
    does the object that [SerializeAsJson] and [ToJson] encode; its value is
    the integer of the builder's bit set, the OR of the flags added to the
    builder, which is 0 when no flag was ever added. *)
Theorem Serialize_always_has_flags (w0 : world) :
  ∃ b, run ContentBuilder.new w0 = Ok (VRef b) ∧
    ∀ (cs : list call) (JSONEncode : world → val → string),
      let w := perform_all cs (exec ContentBuilder.new w0) in
      let v := flags_added (VRef b) cs in
      flags_value w (VRef b) = Some v ∧
      (∃ r, run (ContentBuilder.Serialize (VRef b)) w = Ok (VRef r) ∧
            doc_field (exec (ContentBuilder.Serialize (VRef b)) w) r "flags" = VNum v) ∧
      (∃ r, run (ContentBuilder.SerializeAsJson JSONEncode (VRef b)) w
            = Ok (VStr (JSONEncode
                          (exec (ContentBuilder.SerializeAsJson JSONEncode (VRef b)) w)
                          (VRef r))) ∧
            doc_field (exec (ContentBuilder.SerializeAsJson JSONEncode (VRef b)) w) r "flags"
            = VNum v) ∧
      (∃ r, run (ContentBuilder.ToJson JSONEncode (VRef b)) w
            = Ok (VStr (JSONEncode (exec (ContentBuilder.ToJson JSONEncode (VRef b)) w)
                                   (VRef r))) ∧
            doc_field (exec (ContentBuilder.ToJson JSONEncode (VRef b)) w) r "flags"
            = VNum v) ∧
      (no_flag_added (VRef b) cs → v = 0).
Proof.
  destruct (ContentBuilder_new_spec w0) as (b & Hnew & Hcb).
  exists b. split; [done|]. intros cs enc w v.
  assert (Hw : content_builder w b v) by (by apply content_builder_perform_all).
  repeat apply conj.
  - apply flags_value_has_flags, Hw.
  - apply (wp_Serialize w b v Hw).
  - apply (wp_SerializeAsJson enc w b v Hw).
  - apply (wp_ToJson enc w b v Hw).
  - apply flags_added_none.
Qed.

Lemma Serialize_always_has_flags_witness :
  let w := perform_all [C_SetContent (VRef 1) "hello"; C_AddEmbed (VRef 1) (VStr "no")]
                       (exec ContentBuilder.new empty_world) in
  ∃ r, run (ContentBuilder.Serialize (VRef 1)) w = Ok (VRef r) ∧
       doc_field (exec (ContentBuilder.Serialize (VRef 1)) w) r "flags" = VNum 0.
Proof.
  intros w.
  destruct (Serialize_always_has_flags empty_world) as (b & Hb & Hall).
  assert (b = 1%positive) as -> by (vm_compute in Hb; congruence).
  destruct (Hall [C_SetContent (VRef 1) "hello"; C_AddEmbed (VRef 1) (VStr "no")]
                 (λ _ _, "")) as (_ & (r & Hrun & Hflags) & _ & _ & Hzero).
  assert (Hnone : no_flag_added (VRef 1)
                    [C_SetContent (VRef 1) "hello"; C_AddEmbed (VRef 1) (VStr "no")]).
  { intros flag Hin.
    repeat (apply elem_of_cons in Hin as [Hin|Hin]; [discriminate|]).
    by apply elem_of_nil in Hin. }
  exists r. split; [exact Hrun|].
  rewrite <- (Hzero Hnone). exact Hflags.
Defined.
